(** * escamusica: the playback session of [main.py]

    A shallow embedding of the [CustomPlayer] class, of the
    [on_wavelink_track_end] listener, of the [MusicControls] buttons and of the
    [/play] command, followed by the properties of the playback session that
    the specification states about them.

    Modelling conventions.
    - A coroutine is a function from the player object to an [Outcome]: the
      value it returns, the player afterwards and the calls it made to the
      collaborators (voice backend, Discord), oldest first.
    - An awaited call on a collaborator completes; [Message.edit] can also
      raise [discord.NotFound] or another error, as the handlers around it
      expect, and an exception that no handler catches leaves the coroutine
      ([Raised]) with what it had done so far.  The one call that can wait
      for ever ([asyncio.Queue.get] on an empty queue) gives [Suspended].
    - Coroutines are not interleaved: each handler runs to its end. *)

From Stdlib Require Import ZArith List String Bool Lia DecimalString.
From Stdlib Require Import Permutation.
Import ListNotations.

Set Implicit Arguments.

(** ** Library objects

    [wavelink] and [discord] are libraries, not code of this repository.  Of
    a track only the attributes read by [main.py] are kept. *)

Module wavelink.

Record Playable : Type := {
  title : string;
  author : option string;
  length : Z;               (* milliseconds *)
  artwork : option string }.

End wavelink.

Definition Playable : Type := wavelink.Playable.

(** A Discord message, as the handle that [current_message] keeps. *)
Definition Message : Type := nat.

(** A line of the queue display: the track loaded, or a track that waits. *)
Inductive QueueLine : Type :=
| NowPlayingLine (track : Playable)
| QueuedLine (track : Playable).

Inductive Embed : Type :=
| NowPlaying (track : Playable) (requested_by : string)
| MusicQueue (lines : list QueueLine) (more : nat).

(** What [Message.edit] did: it went through, it raised [discord.NotFound],
    or it raised another error. *)
Inductive EditOutcome : Type :=
| Edited
| NotFound
| OtherError.

(** Calls on the collaborators, in the order the handlers make them. *)
Inductive Effect : Type :=
| BackendPlay (track : Playable)                 (* await self.play(track) *)
| BackendStop                                    (* await vc.stop() *)
| BackendPause (value : bool)                    (* await vc.pause(value) *)
| BackendSetVolume (value : Z)                   (* await vc.set_volume(value) *)
| BackendDisconnect                              (* await self.disconnect() *)
| VoiceConnect                                   (* await channel.connect(cls=CustomPlayer) *)
| Defer                                          (* interaction.response.defer(...) *)
| Followup (content : string)                    (* interaction.followup.send(text) *)
| FollowupEmbed (embed : Embed)                  (* followup.send(embed=..., view=MusicControls()) *)
| EditEmbed (msg : Message) (embed : Embed)      (* current_message.edit(embed=..., view=MusicControls()) *)
| EditContent (msg : Message) (content : string) (* current_message.edit(embed=None, view=None, content=...) *)
| ConsolePrint (text : string)
| CreateTask_play_next.                          (* bot.loop.create_task(vc.play_next_track_from_custom_queue()) *)

Definition is_backend (e : Effect) : bool :=
  match e with
  | BackendPlay _ | BackendStop | BackendPause _ | BackendSetVolume _
  | BackendDisconnect => true
  | _ => false
  end.

(** The commands that reached the voice backend. *)
Definition backend_commands (out : list Effect) : list Effect :=
  filter is_backend out.

(** ** asyncio.Queue, unbounded *)

Module Queue.
Section Queue.
Variable A : Type.

Definition t : Type := list A.

Definition new : t := [].

Definition empty (q : t) : bool :=
  match q with [] => true | _ :: _ => false end.

Definition put (x : A) (q : t) : t := q ++ [x].

(** [get] on an empty queue waits: [None]. *)
Definition get (q : t) : option (A * t) :=
  match q with
  | [] => None
  | x :: q' => Some (x, q')
  end.

(** [while not src.empty(): await dst.put(await src.get())] *)
Fixpoint transfer (src dst : t) : t :=
  match src with
  | [] => dst
  | x :: src' => transfer src' (put x dst)
  end.

(** [for x in xs: await q.put(x)] *)
Definition put_all (xs : list A) (q : t) : t :=
  fold_left (fun acc x => put x acc) xs q.

End Queue.
End Queue.

Arguments Queue.new {A}.
Arguments Queue.empty {A} q.
Arguments Queue.put {A} x q.
Arguments Queue.get {A} q.
Arguments Queue.transfer {A} src dst.
Arguments Queue.put_all {A} xs q.

(** ** Python lists, as [history] uses them *)

(** [l.pop()]: the last element and the list without it. *)
Fixpoint list_pop {A : Type} (l : list A) : option (list A * A) :=
  match l with
  | [] => None
  | x :: l' =>
      match list_pop l' with
      | None => Some ([], x)
      | Some (front, y) => Some (x :: front, y)
      end
  end.

(** [l.pop(0)] on a list that is not empty. *)
Definition list_pop0 {A : Type} (l : list A) : list A := tl l.

(** ** The player object

    The first four fields are the state that [wavelink.Player] keeps and that
    [main.py] reads ([current], [playing], [paused], [volume]); the last four
    are the attributes that [CustomPlayer.__init__] adds. *)

Record CustomPlayer : Type := {
  current : option Playable;
  playing : bool;
  paused : bool;
  volume : Z;
  _custom_queue : Queue.t Playable;
  history : list Playable;
  loop_mode : Z;                  (* 0: Off, 1: Song, 2: Queue *)
  current_message : option Message }.

Definition set_current (c : option Playable) (p : CustomPlayer) : CustomPlayer :=
  {| current := c; playing := playing p; paused := paused p; volume := volume p;
     _custom_queue := _custom_queue p; history := history p;
     loop_mode := loop_mode p; current_message := current_message p |}.

Definition set_playing (b : bool) (p : CustomPlayer) : CustomPlayer :=
  {| current := current p; playing := b; paused := paused p; volume := volume p;
     _custom_queue := _custom_queue p; history := history p;
     loop_mode := loop_mode p; current_message := current_message p |}.

Definition set_paused (b : bool) (p : CustomPlayer) : CustomPlayer :=
  {| current := current p; playing := playing p; paused := b; volume := volume p;
     _custom_queue := _custom_queue p; history := history p;
     loop_mode := loop_mode p; current_message := current_message p |}.

Definition set_volume_field (v : Z) (p : CustomPlayer) : CustomPlayer :=
  {| current := current p; playing := playing p; paused := paused p; volume := v;
     _custom_queue := _custom_queue p; history := history p;
     loop_mode := loop_mode p; current_message := current_message p |}.

Definition set_custom_queue (q : Queue.t Playable) (p : CustomPlayer) : CustomPlayer :=
  {| current := current p; playing := playing p; paused := paused p; volume := volume p;
     _custom_queue := q; history := history p;
     loop_mode := loop_mode p; current_message := current_message p |}.

Definition set_history (h : list Playable) (p : CustomPlayer) : CustomPlayer :=
  {| current := current p; playing := playing p; paused := paused p; volume := volume p;
     _custom_queue := _custom_queue p; history := h;
     loop_mode := loop_mode p; current_message := current_message p |}.

Definition set_loop_mode (m : Z) (p : CustomPlayer) : CustomPlayer :=
  {| current := current p; playing := playing p; paused := paused p; volume := volume p;
     _custom_queue := _custom_queue p; history := history p;
     loop_mode := m; current_message := current_message p |}.

Definition set_current_message (m : option Message) (p : CustomPlayer) : CustomPlayer :=
  {| current := current p; playing := playing p; paused := paused p; volume := volume p;
     _custom_queue := _custom_queue p; history := history p;
     loop_mode := loop_mode p; current_message := m |}.

(** [CustomPlayer.__init__], on a player that has just connected: nothing
    loaded, not paused, wavelink's initial volume. *)
Definition CustomPlayer_init : CustomPlayer :=
  {| current := None; playing := false; paused := false; volume := 100;
     _custom_queue := Queue.new; history := [];
     loop_mode := 0; current_message := None |}.

(** Truth value of an optional object ([if self.current:]). *)
Definition truthy {A : Type} (o : option A) : bool :=
  match o with Some _ => true | None => false end.

(** Truth value of a list ([if self.history:]). *)
Definition nonempty {A : Type} (l : list A) : bool :=
  match l with [] => false | _ :: _ => true end.

(** ** Coroutines *)

Inductive Outcome (S A : Type) : Type :=
| Returned (a : A) (s : S) (out : list Effect)
| Suspended (s : S) (out : list Effect)
| Raised (s : S) (out : list Effect).

Arguments Returned {S A} a s out.
Arguments Suspended {S A} s out.
Arguments Raised {S A} s out.

Definition final {S A : Type} (r : Outcome S A) : S :=
  match r with Returned _ s _ => s | Suspended s _ => s | Raised s _ => s end.

Definition output {S A : Type} (r : Outcome S A) : list Effect :=
  match r with
  | Returned _ _ out => out
  | Suspended _ out => out
  | Raised _ out => out
  end.

Definition returns {S A : Type} (r : Outcome S A) : bool :=
  match r with Returned _ _ _ => true | _ => false end.

(** The coroutine is left waiting for ever. *)
Definition waits {S A : Type} (r : Outcome S A) : bool :=
  match r with Suspended _ _ => true | _ => false end.

(** An exception left the coroutine. *)
Definition raises {S A : Type} (r : Outcome S A) : bool :=
  match r with Raised _ _ => true | _ => false end.

Definition Coro (A : Type) : Type := CustomPlayer -> Outcome CustomPlayer A.

Definition ret {A : Type} (a : A) : Coro A := fun p => Returned a p [].

Definition bind {A B : Type} (m : Coro A) (k : A -> Coro B) : Coro B :=
  fun p =>
    match m p with
    | Returned a p1 out1 =>
        match k a p1 with
        | Returned b p2 out2 => Returned b p2 (out1 ++ out2)
        | Suspended p2 out2 => Suspended p2 (out1 ++ out2)
        | Raised p2 out2 => Raised p2 (out1 ++ out2)
        end
    | Suspended p1 out1 => Suspended p1 out1
    | Raised p1 out1 => Raised p1 out1
    end.

Declare Scope coro_scope.
Delimit Scope coro_scope with coro.
Notation "x <- m ;; k" := (bind m (fun x => k))
  (at level 61, m at next level, right associativity) : coro_scope.
Notation "m ;; k" := (bind m (fun _ => k))
  (at level 61, right associativity) : coro_scope.
Open Scope coro_scope.

(** Read an attribute of [self]. *)
Definition attr {A : Type} (f : CustomPlayer -> A) : Coro A :=
  fun p => Returned (f p) p [].

(** Assign attributes of [self]. *)
Definition assign (f : CustomPlayer -> CustomPlayer) : Coro unit :=
  fun p => Returned tt (f p) [].

(** Call a collaborator. *)
Definition call (e : Effect) : Coro unit :=
  fun p => Returned tt p [e].

(** Wait for ever. *)
Definition wait_forever {A : Type} : Coro A :=
  fun p => Suspended p [].

(** An exception that nothing catches. *)
Definition raise_uncaught {A : Type} : Coro A :=
  fun p => Raised p [].

Definition pass : Coro unit := ret tt.

(** ** wavelink.Player, as [main.py] uses it

    The voice backend is a library outside the repository.  Its calls are
    fire-and-observe: each one is recorded, and the player keeps what the
    library reports back through [current], [playing], [paused] and
    [volume]. *)

Module Player.

(** Modelled from the spec: [wavelink.Player.play] is missing; the track
    becomes the one loaded ([current]) and the player reports [playing]. *)
Definition play (track : Playable) : Coro unit :=
  assign (fun p => set_playing true (set_current (Some track) p)) ;;
  call (BackendPlay track).

(** Modelled from the spec: [wavelink.Player.stop] is missing; it only asks
    the backend to halt, the player changes when the track-end event
    arrives. *)
Definition stop : Coro unit :=
  call BackendStop.

(** Modelled from the spec: [wavelink.Player.pause] is missing. *)
Definition pause (value : bool) : Coro unit :=
  assign (set_paused value) ;;
  call (BackendPause value).

(** Modelled from the spec: [wavelink.Player.set_volume] is missing; the
    backend takes a volume in 0..1000. *)
Definition set_volume (value : Z) : Coro unit :=
  assign (set_volume_field (Z.max (Z.min value 1000) 0)) ;;
  call (BackendSetVolume value).

(** Modelled from the spec: [wavelink.Player.disconnect] is missing; a
    disconnected player plays nothing. *)
Definition disconnect : Coro unit :=
  assign (set_playing false) ;;
  call BackendDisconnect.

End Player.

(** ** CustomPlayer *)

Definition add_to_custom_queue (track : Playable) : Coro unit :=
  assign (fun p => set_custom_queue (Queue.put track (_custom_queue p)) p).

Definition update_now_playing_message (o : EditOutcome) : Coro unit :=
  current_track <- attr current ;;
  msg <- attr current_message ;;
  match msg, current_track with
  | Some m, Some t =>
      call (EditEmbed m (NowPlaying t "Bot (Queue)")) ;;
      match o with
      | Edited => pass
      | NotFound => assign (set_current_message None)
      | OtherError => call (ConsolePrint "Error updating now playing message")
      end
  | _, _ => ret tt
  end.

(** The edit of the farewell text is attempted when a message is kept.
    [discord.NotFound] is caught and passed over; any other error is caught
    by nothing here and leaves the function before the message is dropped
    and before the disconnect. *)
Definition disconnect_and_clean_up (o : EditOutcome) : Coro unit :=
  assign (set_custom_queue Queue.new) ;;
  assign (set_history []) ;;
  assign (set_loop_mode 0) ;;
  msg <- attr current_message ;;
  match msg with
  | Some m =>
      call (EditContent m "Queue finished. Disconnected from voice.") ;;
      match o with
      | Edited => pass
      | NotFound => pass
      | OtherError => raise_uncaught
      end ;;
      assign (set_current_message None)
  | None => pass
  end ;;
  Player.disconnect.

(** Lines 69-71: [self.history.append(self.current)], then one [pop(0)] when
    the list has grown past ten. *)
Definition history_append (track : Playable) (h : list Playable) : list Playable :=
  let h1 := h ++ [track] in
  if (10 <? List.length h1)%nat then list_pop0 h1 else h1.

(** Lines 66-74 of [play_next_track_from_custom_queue]: take the next track,
    file the one that ended, play. *)
Definition play_next_tail (o : EditOutcome) : Coro unit :=
  q <- attr _custom_queue ;;
  match Queue.get q with
  | None => wait_forever
  | Some (next_track, q') =>
      assign (set_custom_queue q') ;;
      cur <- attr current ;;
      match cur with
      | Some c => assign (fun p => set_history (history_append c (history p)) p)
      | None => pass
      end ;;
      Player.play next_track ;;
      update_now_playing_message o
  end.

Definition play_next_track_from_custom_queue (o : EditOutcome) : Coro unit :=
  lm <- attr loop_mode ;;
  cur <- attr current ;;
  if (lm =? 1)%Z && truthy cur then
    match cur with
    | Some c => Player.play c ;; update_now_playing_message o
    | None => pass
    end
  else
    q <- attr _custom_queue ;;
    if Queue.empty q then
      h <- attr history ;;
      if (lm =? 2)%Z && nonempty h then
        assign (fun p => set_custom_queue (Queue.put_all (history p) (_custom_queue p)) p) ;;
        assign (set_history []) ;;
        play_next_tail o
      else
        disconnect_and_clean_up o
    else
      play_next_tail o.

(** ** Event listener and commands

    A handler receives the guild's voice client, [None] when the bot is in no
    voice channel, and leaves it behind. *)

Definition Handler : Type := Outcome (option CustomPlayer) unit.

Definition as_client (r : Outcome CustomPlayer unit) : Handler :=
  match r with
  | Returned a p out => Returned a (Some p) out
  | Suspended p out => Suspended (Some p) out
  | Raised p out => Raised (Some p) out
  end.

(** The typed [player] already is a [CustomPlayer]: the [isinstance] test is
    the type, the [not player] test is [None]. *)
Definition on_wavelink_track_end (reason : Z) (o : EditOutcome)
    (player : option CustomPlayer) : Handler :=
  match player with
  | None => Returned tt None []
  | Some self =>
      as_client (
        if (reason =? 0)%Z then
          play_next_track_from_custom_queue o self
        else if (reason =? 1)%Z then
          if negb (Queue.empty (_custom_queue self)) then
            play_next_track_from_custom_queue o self
          else
            disconnect_and_clean_up o self
        else
          ret tt self)
  end.

Definition not_in_voice : Handler :=
  Returned tt None [Defer; Followup "I'm not in a voice channel."].

Definition previous_button (o : EditOutcome) (vc : option CustomPlayer) : Handler :=
  match vc with
  | None => not_in_voice
  | Some self =>
      as_client ((
        call Defer ;;
        h <- attr history ;;
        match list_pop h with
        | Some (h', previous_track) =>
            assign (set_history h') ;;
            cur <- attr current ;;
            match cur with
            | Some c =>
                assign (fun p =>
                  set_custom_queue
                    (Queue.transfer (_custom_queue p) (Queue.put c Queue.new)) p)
            | None => pass
            end ;;
            Player.play previous_track ;;
            call (Followup ("Playing previous song: **"
                            ++ wavelink.title previous_track ++ "**")) ;;
            update_now_playing_message o
        | None => call (Followup "No previous song in history.")
        end) self)
  end.

Definition play_button (vc : option CustomPlayer) : Handler :=
  match vc with
  | Some self =>
      as_client ((
        call Defer ;;
        if paused self then
          Player.pause false ;; call (Followup "Resumed music!")
        else
          call (Followup "Music is already playing or no music to resume.")) self)
  | None =>
      Returned tt None
        [Defer; Followup "Music is already playing or no music to resume."]
  end.

Definition pause_button (vc : option CustomPlayer) : Handler :=
  match vc with
  | Some self =>
      as_client ((
        call Defer ;;
        if playing self then
          Player.pause true ;; call (Followup "Paused music!")
        else
          call (Followup "No music playing to pause.")) self)
  | None => Returned tt None [Defer; Followup "No music playing to pause."]
  end.

Definition skip_button (vc : option CustomPlayer) : Handler :=
  match vc with
  | None => not_in_voice
  | Some self =>
      as_client ((
        call Defer ;;
        if negb (truthy (current self)) && Queue.empty (_custom_queue self)
           && negb (loop_mode self =? 2)%Z then
          call (Followup "No more songs in the queue to skip to.")
        else if playing self || paused self then
          Player.stop ;; call (Followup "Skipped song!")
        else
          call (Followup "No music playing to skip.")) self)
  end.

Definition stop_button (o : EditOutcome) (vc : option CustomPlayer) : Handler :=
  match vc with
  | Some self =>
      as_client ((
        call Defer ;;
        disconnect_and_clean_up o ;;
        call (Followup "Disconnected from voice and cleared queue.")) self)
  | None => not_in_voice
  end.

Definition queue_button (vc : option CustomPlayer) : Handler :=
  match vc with
  | None => Returned tt None [Defer; Followup "The queue is empty."]
  | Some self =>
      as_client ((
        call Defer ;;
        if negb (truthy (current self)) && Queue.empty (_custom_queue self) then
          call (Followup "The queue is empty.")
        else
          let now := match current self with
                     | Some c => [NowPlayingLine c]
                     | None => []
                     end in
          (* drained by get(), oldest first *)
          let temp_queue_items := Queue.transfer (_custom_queue self) [] in
          let queue_list := now ++ map QueuedLine temp_queue_items in
          assign (set_custom_queue (Queue.put_all temp_queue_items Queue.new)) ;;
          if negb (nonempty queue_list) then
            call (Followup "The queue is empty.")
          else
            call (FollowupEmbed
                    (MusicQueue (firstn 10 queue_list) (List.length queue_list - 10)))
        ) self)
  end.

(** [shuffle] stands for what [random.shuffle] made of the items. *)
Definition shuffle_button (shuffle : list Playable -> list Playable)
    (vc : option CustomPlayer) : Handler :=
  match vc with
  | None => not_in_voice
  | Some self =>
      as_client ((
        call Defer ;;
        if Queue.empty (_custom_queue self) then
          call (Followup "Queue is empty, nothing to shuffle.")
        else
          let queue_items := Queue.transfer (_custom_queue self) [] in
          assign (set_custom_queue (Queue.put_all (shuffle queue_items) Queue.new)) ;;
          call (Followup "Queue shuffled!")) self)
  end.

(** [modes = {0: "Off", 1: "Song", 2: "Queue"}] *)
Definition modes (m : Z) : option string :=
  if (m =? 0)%Z then Some "Off"%string
  else if (m =? 1)%Z then Some "Song"%string
  else if (m =? 2)%Z then Some "Queue"%string
  else None.

Definition loop_button (vc : option CustomPlayer) : Handler :=
  match vc with
  | None => not_in_voice
  | Some self =>
      as_client ((
        call Defer ;;
        assign (fun p => set_loop_mode ((loop_mode p + 1) mod 3) p) ;;
        lm <- attr loop_mode ;;
        match modes lm with
        | Some name => call (Followup ("Loop mode set to: **" ++ name ++ "**"))
        | None => pass     (* KeyError; the key is always one of 0, 1, 2 *)
        end) self)
  end.

(** [str(n)] *)
Definition str (n : Z) : string := NilZero.string_of_int (Z.to_int n).

Definition vol_up_button (vc : option CustomPlayer) : Handler :=
  match vc with
  | None => not_in_voice
  | Some self =>
      as_client ((
        call Defer ;;
        current_volume <- attr volume ;;
        let new_volume := Z.min 1000 (current_volume + 100) in
        Player.set_volume new_volume ;;
        call (Followup ("Volume set to " ++ str (new_volume / 10) ++ "%"))) self)
  end.

Definition vol_down_button (vc : option CustomPlayer) : Handler :=
  match vc with
  | None => not_in_voice
  | Some self =>
      as_client ((
        call Defer ;;
        current_volume <- attr volume ;;
        let new_volume := Z.max 0 (current_volume - 100) in
        Player.set_volume new_volume ;;
        call (Followup ("Volume set to " ++ str (new_volume / 10) ++ "%"))) self)
  end.

(** Lines 354-385 of [/play], once the voice client and the track are known. *)
Definition request_play (track : Playable) (mention : string) (msg : Message)
    : Coro unit :=
  is_playing <- attr playing ;;
  if is_playing then
    add_to_custom_queue track ;;
    call (Followup ("Added **" ++ wavelink.title track ++ "** to the queue."))
  else
    Player.play track ;;
    call (FollowupEmbed (NowPlaying track mention)) ;;
    assign (set_current_message (Some msg)) ;;
    q <- attr _custom_queue ;;
    if negb (Queue.empty q) then call CreateTask_play_next else pass.

(** [/play]: [user_voice] tells whether the user sits in a voice channel,
    [found] is the answer of [wavelink.Playable.search], [msg] the message the
    now-playing embed is sent as. *)
Definition play (query : string) (user_voice : bool) (found : list Playable)
    (mention : string) (msg : Message) (vc : option CustomPlayer) : Handler :=
  let not_found := Followup ("No tracks found for '" ++ query ++ "'") in
  match vc with
  | Some self =>
      match found with
      | [] => Returned tt (Some self) [Defer; not_found]
      | track :: _ =>
          as_client ((call Defer ;; request_play track mention msg) self)
      end
  | None =>
      if negb user_voice then
        Returned tt None [Defer; Followup "You're not in a voice channel!"]
      else
        match found with
        | [] => Returned tt (Some CustomPlayer_init) [Defer; VoiceConnect; not_found]
        | track :: _ =>
            as_client ((call Defer ;; call VoiceConnect ;;
                        request_play track mention msg) CustomPlayer_init)
        end
  end.

(** [/join].  Discord refuses a second connection in a guild: a voice client
    that exists stays as it is. *)
Definition join (user_voice : bool) (channel : string)
    (vc : option CustomPlayer) : Handler :=
  if negb user_voice then
    Returned tt vc [Followup "You're not in a voice channel!"]
  else
    match vc with
    | None =>
        Returned tt (Some CustomPlayer_init)
          [VoiceConnect; Followup ("Joined " ++ channel)]
    | Some self => Returned tt (Some self) [VoiceConnect]
    end.

(** ** The session as a transition system

    Everything that can happen to the voice client of a guild: the listener,
    the buttons, the commands, the task that [/play] creates, and the library
    updating its own part of the player (a track loaded or unloaded, the
    voice client dropped after a disconnect). *)

Inductive Event : Type :=
| TrackEnd (reason : Z) (o : EditOutcome)
| Previous (o : EditOutcome)
| Resume
| Pause
| Skip
| Stop (o : EditOutcome)
| ShowQueue
| Shuffle (shuffle : list Playable -> list Playable)
| Loop
| VolUp
| VolDown
| Join (user_voice : bool) (channel : string)
| Play (query : string) (user_voice : bool) (found : list Playable)
       (mention : string) (msg : Message)
| TaskPlayNext (o : EditOutcome)
| LibraryUpdate (c : option Playable) (is_playing is_paused : bool) (v : Z)
| ClientDropped.

Definition dispatch (ev : Event) (vc : option CustomPlayer) : Handler :=
  match ev with
  | TrackEnd reason o => on_wavelink_track_end reason o vc
  | Previous o => previous_button o vc
  | Resume => play_button vc
  | Pause => pause_button vc
  | Skip => skip_button vc
  | Stop o => stop_button o vc
  | ShowQueue => queue_button vc
  | Shuffle shuffle => shuffle_button shuffle vc
  | Loop => loop_button vc
  | VolUp => vol_up_button vc
  | VolDown => vol_down_button vc
  | Join user_voice channel => join user_voice channel vc
  | Play query user_voice found mention msg =>
      play query user_voice found mention msg vc
  | TaskPlayNext o =>
      match vc with
      | Some self => as_client (play_next_track_from_custom_queue o self)
      | None => Returned tt None []
      end
  | LibraryUpdate c is_playing is_paused v =>
      match vc with
      | Some self =>
          Returned tt
            (Some (set_current c (set_playing is_playing
                     (set_paused is_paused (set_volume_field v self))))) []
      | None => Returned tt None []
      end
  | ClientDropped => Returned tt None []
  end.

(** The voice clients a guild can come to hold, from none at all. *)
Inductive reachable : option CustomPlayer -> Prop :=
| reachable_start : reachable None
| reachable_step (ev : Event) (vc : option CustomPlayer) :
    reachable vc -> reachable (final (dispatch ev vc)).

(** Run a list of events, oldest first. *)
Definition run (evs : list Event) (vc : option CustomPlayer) : option CustomPlayer :=
  fold_left (fun s ev => final (dispatch ev s)) evs vc.

(** The history of the voice client, if there is one, holds at most ten
    tracks. *)
Definition bounded (vc : option CustomPlayer) : Prop :=
  match vc with
  | Some p => (List.length (history p) <= 10)%nat
  | None => True
  end.

(** ** Sample tracks and sessions *)

Definition track (name : string) : Playable :=
  {| wavelink.title := name; wavelink.author := None;
     wavelink.length := 180000; wavelink.artwork := None |}.

Definition track_A : Playable := track "A".
Definition track_B : Playable := track "B".
Definition track_C : Playable := track "C".

(** Track number [n] of a playlist. *)
Definition numbered (n : nat) : Playable := track (str (Z.of_nat n)).

(** Tracks number [first], [first + 1], ... ([count] of them). *)
Definition playlist (first count : nat) : list Playable :=
  map numbered (seq first count).

(** A player on which [c] is loaded and playing. *)
Definition session (c : option Playable) (q h : list Playable) (lm : Z)
    : CustomPlayer :=
  {| current := c; playing := truthy c; paused := false; volume := 100;
     _custom_queue := q; history := h; loop_mode := lm;
     current_message := Some 1%nat |}.

(** A listener asks for tracks number 1 to [n] one after the other, then
    hears all but the last of them to the end. *)
Definition listening (n : nat) : list Event :=
  Join true "#music"
  :: map (fun k => Play (str (Z.of_nat k)) true [numbered k] "@user" 1%nat)
         (seq 1 n)
  ++ repeat (TrackEnd 0 Edited) (n - 1).

(** A player on which nothing is loaded any more, left paused, in loop
    mode 2 (Queue). *)
Definition paused_idle : CustomPlayer :=
  {| current := None; playing := false; paused := true; volume := 100;
     _custom_queue := []; history := []; loop_mode := 2;
     current_message := Some 1%nat |}.

(** How a guild gets there: a track is requested and paused, the library
    unloads it, the Loop button is pressed twice. *)
Definition to_paused_idle : list Event :=
  [ Join true "#music";
    Play "A" true [track_A] "@user" 1%nat;
    Pause;
    LibraryUpdate None false true 100;
    Loop;
    Loop ].

(** The handler refused with a message: the player is the one it received
    and the backend heard nothing. *)
Definition refused (p : CustomPlayer) (r : Handler) : Prop :=
  final r = Some p /\ backend_commands (output r) = [].

(** The test of [skip_button] that answers "No more songs in the queue to
    skip to.". *)
Definition nothing_to_skip_to (p : CustomPlayer) : bool :=
  negb (truthy (current p)) && Queue.empty (_custom_queue p)
  && negb (loop_mode p =? 2)%Z.

(** ** Views of a session *)

Definition option_list {A : Type} (o : option A) : list A :=
  match o with Some x => [x] | None => [] end.

(** The tracks of a session in playing order: those played, the one loaded,
    those that wait. *)
Definition timeline (p : CustomPlayer) : list Playable :=
  history p ++ option_list (current p) ++ _custom_queue p.

(** The tracks of a session in the order loop mode 2 will play them: the
    queue, then the history, then the track loaded now. *)
Definition rotation (p : CustomPlayer) : list Playable :=
  _custom_queue p ++ history p ++ option_list (current p).

(** The first element goes to the end. *)
Definition rotate {A : Type} (l : list A) : list A :=
  match l with
  | [] => []
  | x :: l' => l' ++ [x]
  end.

(** The lines of the queue display before it is cut to ten. *)
Definition queue_lines (p : CustomPlayer) : list QueueLine :=
  match current p with
  | Some c => [NowPlayingLine c]
  | None => []
  end ++ map QueuedLine (_custom_queue p).

(** Everything the handlers called while a list of events ran. *)
Fixpoint run_outputs (evs : list Event) (vc : option CustomPlayer) : list Effect :=
  match evs with
  | [] => []
  | ev :: evs' =>
      output (dispatch ev vc) ++ run_outputs evs' (final (dispatch ev vc))
  end.

(** A track-end event that the listener acts on: finished or stopped. *)
Definition track_ended (ev : Event) : Prop :=
  match ev with
  | TrackEnd reason _ => reason = 0%Z \/ reason = 1%Z
  | _ => False
  end.

(** A track-end event with reason 0. *)
Definition track_finished (ev : Event) : Prop :=
  match ev with
  | TrackEnd reason _ => reason = 0%Z
  | _ => False
  end.

(** [/play] by a user, answered by the search with [t] first. *)
Definition requests (t : Playable) (ev : Event) : Prop :=
  match ev with
  | Play _ _ (t' :: _) _ _ => t' = t
  | _ => False
  end.


(** Nothing is left to play: the queue is empty, there is nothing to replay
    and nothing to drain. *)
Definition nothing_left (p : CustomPlayer) : Prop :=
  _custom_queue p = []
  /\ (loop_mode p <> 1%Z \/ current p = None)
  /\ (loop_mode p <> 2%Z \/ history p = []).

(** The loop mode of the voice client, if there is one, is 0, 1 or 2. *)
Definition loop_mode_valid (vc : option CustomPlayer) : Prop :=
  match vc with
  | Some p => (0 <= loop_mode p <= 2)%Z
  | None => True
  end.

(** ** Running a coroutine symbolically *)

Ltac open_player p :=
  let c := fresh "c" in let pl := fresh "pl" in let pa := fresh "pa" in
  let v := fresh "v" in let q := fresh "q" in let h := fresh "h" in
  let lm := fresh "lm" in let cm := fresh "cm" in
  destruct p as [c pl pa v q h lm cm]; simpl in *; subst.

Ltac step_coro :=
  cbv [on_wavelink_track_end play_next_track_from_custom_queue play_next_tail
       disconnect_and_clean_up update_now_playing_message add_to_custom_queue
       previous_button play_button pause_button skip_button stop_button
       queue_button shuffle_button loop_button vol_up_button vol_down_button
       request_play play join not_in_voice
       Player.play Player.stop Player.pause Player.set_volume Player.disconnect
       bind ret attr assign call pass wait_forever raise_uncaught as_client
       final output returns waits raises backend_commands
       set_current set_playing set_paused set_volume_field set_custom_queue
       set_history set_loop_mode set_current_message
       Queue.empty Queue.get Queue.new truthy nonempty];
  simpl.

(** The same without the final simplification. *)
Ltac unfold_coro :=
  cbv [on_wavelink_track_end play_next_track_from_custom_queue play_next_tail
       disconnect_and_clean_up update_now_playing_message add_to_custom_queue
       previous_button play_button pause_button skip_button stop_button
       queue_button shuffle_button loop_button vol_up_button vol_down_button
       request_play play join not_in_voice
       Player.play Player.stop Player.pause Player.set_volume Player.disconnect
       bind ret attr assign call pass wait_forever raise_uncaught as_client
       final output returns waits raises backend_commands
       set_current set_playing set_paused set_volume_field set_custom_queue
       set_history set_loop_mode set_current_message
       Queue.empty Queue.get Queue.new truthy nonempty].

Ltac split_ifs :=
  repeat match goal with
         | |- context [if ?b then _ else _] => destruct b; simpl
         | |- context [match ?x with Some _ => _ | None => _ end] =>
             destruct x; simpl
         end.

(** ** Lists and queues *)

Lemma transfer_app (A : Type) (src dst : Queue.t A) :
  Queue.transfer src dst = dst ++ src.
Proof.
  revert dst; induction src as [|x src IH]; intros dst; simpl.
  - now rewrite app_nil_r.
  - rewrite IH. unfold Queue.put. now rewrite <- app_assoc.
Qed.

Lemma put_all_app (A : Type) (xs : list A) (q : Queue.t A) :
  Queue.put_all xs q = q ++ xs.
Proof.
  unfold Queue.put_all.
  revert q; induction xs as [|x xs IH]; intros q; simpl.
  - now rewrite app_nil_r.
  - rewrite IH. unfold Queue.put. now rewrite <- app_assoc.
Qed.

Lemma list_pop_snoc (A : Type) (l : list A) (x : A) :
  list_pop (l ++ [x]) = Some (l, x).
Proof.
  induction l as [|y l IH]; simpl.
  - reflexivity.
  - now rewrite IH.
Qed.

Lemma list_pop_some (A : Type) (l front : list A) (x : A) :
  list_pop l = Some (front, x) -> l = front ++ [x].
Proof.
  revert front; induction l as [|y l IH]; intros front; simpl.
  - discriminate.
  - destruct (list_pop l) as [[f z]|] eqn:E.
    + intros H; injection H as <- <-. simpl. f_equal. now apply IH.
    + intros H; injection H as <- <-.
      destruct l as [|w l]; [reflexivity|].
      simpl in E. destruct (list_pop l) as [[? ?]|]; discriminate.
Qed.

Lemma list_pop_none (A : Type) (l : list A) :
  list_pop l = None <-> l = [].
Proof.
  split.
  - destruct l as [|x l]; [reflexivity|].
    simpl. destruct (list_pop l) as [[? ?]|]; discriminate.
  - now intros ->.
Qed.

Lemma history_append_bounded (t : Playable) (h : list Playable) :
  (List.length h <= 10)%nat -> (List.length (history_append t h) <= 10)%nat.
Proof.
  intros H. unfold history_append, list_pop0.
  destruct (Nat.ltb_spec 10 (List.length (h ++ [t]))) as [Hlt|Hle].
  - destruct (h ++ [t]) as [|x l] eqn:E.
    + simpl; lia.
    + assert (List.length (x :: l) = S (List.length h)) as Hl.
      { rewrite <- E, length_app. simpl. lia. }
      simpl in *. lia.
  - exact Hle.
Qed.

(** The track appended is the last entry, whether the front was dropped or
    not. *)
Lemma history_append_last (t : Playable) (h : list Playable) :
  exists l, history_append t h = l ++ [t].
Proof.
  unfold history_append, list_pop0.
  destruct (Nat.ltb_spec 10 (List.length (h ++ [t]))) as [Hlt|_];
    [|now exists h].
  destruct h as [|x h]; simpl.
  - simpl in Hlt. lia.
  - now exists h.
Qed.

Lemma history_append_short (t : Playable) (h : list Playable) :
  (List.length h < 10)%nat -> history_append t h = h ++ [t].
Proof.
  intros H. unfold history_append.
  destruct (Nat.ltb_spec 10 (List.length (h ++ [t]))) as [Hlt|Hle]; [|reflexivity].
  rewrite length_app in Hlt. simpl in Hlt. lia.
Qed.

Lemma history_append_full (t x : Playable) (h : list Playable) :
  List.length (x :: h) = 10%nat -> history_append t (x :: h) = h ++ [t].
Proof.
  intros H. unfold history_append.
  destruct (Nat.ltb_spec 10 (List.length ((x :: h) ++ [t]))) as [Hlt|Hle].
  - reflexivity.
  - rewrite length_app in Hle. simpl in *. lia.
Qed.

(** ** Laws of the coroutine combinators *)

Lemma bind_attr (A B : Type) (f : CustomPlayer -> A) (k : A -> Coro B)
    (p : CustomPlayer) :
  bind (attr f) k p = k (f p) p.
Proof. unfold bind, attr. destruct (k (f p) p); reflexivity. Qed.

Lemma bind_assign (B : Type) (f : CustomPlayer -> CustomPlayer)
    (k : unit -> Coro B) (p : CustomPlayer) :
  bind (assign f) k p = k tt (f p).
Proof. unfold bind, assign. destruct (k tt (f p)); reflexivity. Qed.

Lemma bind_ret (A B : Type) (a : A) (k : A -> Coro B) (p : CustomPlayer) :
  bind (ret a) k p = k a p.
Proof. unfold bind, ret. destruct (k a p); reflexivity. Qed.

Lemma bind_assoc (A B C : Type) (m : Coro A) (k : A -> Coro B)
    (k' : B -> Coro C) (p : CustomPlayer) :
  bind (bind m k) k' p = bind m (fun a => bind (k a) k') p.
Proof.
  unfold bind. destruct (m p) as [a p1 out1|p1 out1|p1 out1]; try reflexivity.
  destruct (k a p1) as [b p2 out2|p2 out2|p2 out2]; try reflexivity.
  destruct (k' b p2); now rewrite app_assoc.
Qed.

(** ** The methods of CustomPlayer *)

(** The player that [play_next_tail] leaves when [next] heads the queue. *)
Lemma play_next_tail_cons (o : EditOutcome) (p : CustomPlayer)
    (next : Playable) (q' : list Playable) :
  _custom_queue p = next :: q' ->
  exists out,
    play_next_tail o p
      = Returned tt
          {| current := Some next; playing := true; paused := paused p;
             volume := volume p; _custom_queue := q';
             history := match current p with
                        | Some c => history_append c (history p)
                        | None => history p
                        end;
             loop_mode := loop_mode p;
             current_message := match o with
                                | NotFound => None
                                | _ => current_message p
                                end |} out
    /\ backend_commands out = [BackendPlay next].
Proof.
  intros Hq. open_player p. step_coro.
  destruct c, cm, o; simpl; eexists; split; reflexivity.
Qed.

(** Loop mode 2 on an empty queue: the history becomes the queue, in its
    order, the history is emptied, then the tail runs. *)
Lemma play_next_drains_history (o : EditOutcome) (p : CustomPlayer)
    (a : Playable) (rest : list Playable) :
  loop_mode p = 2%Z -> _custom_queue p = [] -> history p = a :: rest ->
  play_next_track_from_custom_queue o p
    = play_next_tail o (set_history [] (set_custom_queue (a :: rest) p)).
Proof.
  intros Hl Hq Hh.
  assert (Queue.put_all (history p) (_custom_queue p) = a :: rest) as Hdrain.
  { rewrite put_all_app, Hq, Hh. reflexivity. }
  open_player p.
  cbv [play_next_track_from_custom_queue bind attr assign ret
       Queue.empty nonempty truthy set_history set_custom_queue].
  simpl. simpl in Hdrain. rewrite Hdrain.
  destruct (play_next_tail o _); reflexivity.
Qed.

(** The four ways [play_next_track_from_custom_queue] can go: replay, take the
    head of the queue, drain the history first, or disconnect. *)
Lemma play_next_cases (o : EditOutcome) (p : CustomPlayer) :
  (exists c, loop_mode p = 1%Z /\ current p = Some c
     /\ play_next_track_from_custom_queue o p
        = (Player.play c ;; update_now_playing_message o) p)
  \/ (exists next q', _custom_queue p = next :: q'
     /\ play_next_track_from_custom_queue o p = play_next_tail o p)
  \/ (exists a rest, loop_mode p = 2%Z /\ _custom_queue p = []
     /\ history p = a :: rest
     /\ play_next_track_from_custom_queue o p
        = play_next_tail o (set_history [] (set_custom_queue (a :: rest) p)))
  \/ (_custom_queue p = []
     /\ play_next_track_from_custom_queue o p = disconnect_and_clean_up o p).
Proof.
  unfold play_next_track_from_custom_queue. rewrite !bind_attr.
  destruct (Z.eqb_spec (loop_mode p) 1) as [H1|H1];
    [destruct (current p) as [c|] eqn:Hc|]; simpl.
  - left. exists c. auto.
  - rewrite bind_attr.
    destruct (_custom_queue p) as [|next q'] eqn:Hq; simpl.
    + right; right; right. rewrite bind_attr, H1. split; reflexivity.
    + right; left. exists next, q'. auto.
  - rewrite bind_attr.
    destruct (_custom_queue p) as [|next q'] eqn:Hq; simpl.
    + rewrite bind_attr.
      destruct (Z.eqb_spec (loop_mode p) 2) as [H2|H2];
        [destruct (history p) as [|a rest] eqn:Hh|]; simpl.
      * right; right; right. split; reflexivity.
      * right; right; left. exists a, rest. repeat split; try assumption.
        rewrite !bind_assign. f_equal.
        open_player p. cbv [set_history set_custom_queue]. simpl.
        rewrite put_all_app. reflexivity.
      * right; right; right. split; reflexivity.
    + right; left. exists next, q'. auto.
Qed.

Lemma replay_spec (o : EditOutcome) (p : CustomPlayer) (c : Playable) :
  exists out,
    (Player.play c ;; update_now_playing_message o) p
      = Returned tt
          {| current := Some c; playing := true; paused := paused p;
             volume := volume p; _custom_queue := _custom_queue p;
             history := history p; loop_mode := loop_mode p;
             current_message := match o with
                                | NotFound => None
                                | _ => current_message p
                                end |} out
    /\ backend_commands out = [BackendPlay c].
Proof.
  open_player p. step_coro.
  destruct cm, o; simpl; eexists; split; reflexivity.
Qed.

(** The clean-up when nothing stops it: no message is kept, or the edit of
    the farewell text went through or raised [discord.NotFound]. *)
Lemma disconnect_and_clean_up_completes (o : EditOutcome) (p : CustomPlayer) :
  current_message p = None \/ o <> OtherError ->
  exists out,
    disconnect_and_clean_up o p
      = Returned tt
          {| current := current p; playing := false; paused := paused p;
             volume := volume p; _custom_queue := []; history := [];
             loop_mode := 0; current_message := None |} out
    /\ backend_commands out = [BackendDisconnect].
Proof.
  intros Hok. open_player p. step_coro.
  destruct cm as [m|]; [destruct o|]; simpl;
    try (eexists; split; reflexivity).
  destruct Hok as [Hok|Hok]; [discriminate | contradiction].
Qed.

(** The clean-up when a message is kept and its edit raises an error other
    than [discord.NotFound]: the exception leaves the function after the
    three resets; the message is kept and the backend is not told to
    disconnect. *)
Lemma disconnect_and_clean_up_aborts (p : CustomPlayer) (m : Message) :
  current_message p = Some m ->
  disconnect_and_clean_up OtherError p
    = Raised
        {| current := current p; playing := playing p; paused := paused p;
           volume := volume p; _custom_queue := []; history := [];
           loop_mode := 0; current_message := Some m |}
        [EditContent m "Queue finished. Disconnected from voice."].
Proof. intros Hm. open_player p. reflexivity. Qed.

(** Whatever the edit does, queue, history and loop mode are reset, and the
    function does not wait. *)
Lemma disconnect_and_clean_up_resets (o : EditOutcome) (p : CustomPlayer) :
  _custom_queue (final (disconnect_and_clean_up o p)) = []
  /\ history (final (disconnect_and_clean_up o p)) = []
  /\ loop_mode (final (disconnect_and_clean_up o p)) = 0%Z
  /\ waits (disconnect_and_clean_up o p) = false.
Proof.
  open_player p. step_coro. destruct cm as [m|]; [destruct o|]; repeat split.
Qed.


(** A finished or stopped track over a queue headed by [x], when the track
    is not to be replayed: [x] is played and the old track is filed. *)
Lemma track_end_advances (r : Z) (o : EditOutcome) (p : CustomPlayer)
    (x : Playable) (q' : list Playable) :
  r = 0%Z \/ r = 1%Z ->
  loop_mode p <> 1%Z \/ current p = None ->
  _custom_queue p = x :: q' ->
  exists out,
    on_wavelink_track_end r o (Some p)
      = Returned tt
          (Some {| current := Some x; playing := true; paused := paused p;
                   volume := volume p; _custom_queue := q';
                   history := match current p with
                              | Some c => history_append c (history p)
                              | None => history p
                              end;
                   loop_mode := loop_mode p;
                   current_message := match o with
                                      | NotFound => None
                                      | _ => current_message p
                                      end |}) out
    /\ backend_commands out = [BackendPlay x].
Proof.
  intros Hr Hloop Hq.
  assert (on_wavelink_track_end r o (Some p)
          = as_client (play_next_track_from_custom_queue o p)) as ->.
  { unfold on_wavelink_track_end. destruct Hr as [-> | ->]; simpl.
    - reflexivity.
    - rewrite Hq. reflexivity. }
  destruct (play_next_cases o p)
    as [(c & Hl & Hc & _)|[(next & q0 & Hq0 & E)|
        [(a & rest & _ & Hq0 & _)|[Hq0 _]]]];
    try congruence.
  - destruct Hloop; congruence.
  - rewrite E. destruct (play_next_tail_cons o p Hq) as (out & -> & Hout).
    exists out. split; [reflexivity | exact Hout].
Qed.

Lemma play_next_replays (o : EditOutcome) (p : CustomPlayer) (c : Playable) :
  loop_mode p = 1%Z -> current p = Some c ->
  play_next_track_from_custom_queue o p
    = (Player.play c ;; update_now_playing_message o) p.
Proof.
  intros Hl Hc. unfold play_next_track_from_custom_queue.
  rewrite !bind_attr, Hl, Hc. reflexivity.
Qed.

Lemma play_next_disconnects (o : EditOutcome) (p : CustomPlayer) :
  _custom_queue p = [] ->
  loop_mode p <> 1%Z \/ current p = None ->
  loop_mode p <> 2%Z \/ history p = [] ->
  play_next_track_from_custom_queue o p = disconnect_and_clean_up o p.
Proof.
  intros Hq H1 H2. unfold play_next_track_from_custom_queue.
  rewrite !bind_attr.
  assert ((loop_mode p =? 1)%Z && truthy (current p) = false) as ->.
  { destruct H1 as [H1|H1].
    - apply Z.eqb_neq in H1. now rewrite H1.
    - rewrite H1. apply andb_false_r. }
  rewrite bind_attr, Hq. simpl. rewrite bind_attr.
  assert ((loop_mode p =? 2)%Z && nonempty (history p) = false) as ->.
  { destruct H2 as [H2|H2].
    - apply Z.eqb_neq in H2. now rewrite H2.
    - rewrite H2. apply andb_false_r. }
  reflexivity.
Qed.

Lemma final_as_client (r : Outcome CustomPlayer unit) :
  final (as_client r) = Some (final r).
Proof. destruct r; reflexivity. Qed.

(** ** The track-end listener *)

Lemma reason_other (reason : Z) :
  reason <> 0%Z -> reason <> 1%Z ->
  (reason =? 0)%Z = false /\ (reason =? 1)%Z = false.
Proof. intros H0 H1. split; apply Z.eqb_neq; assumption. Qed.

(** C10. A track-end event whose reason is neither 0 (finished) nor 1
    (stopped) is ignored: the listener returns at once, the player is the one
    it received (queue, history, current track, loop mode and all the rest),
    and no collaborator is called, so nothing is played and nothing
    disconnects. *)
Theorem track_end_other_reason_ignored
    (reason : Z) (o : EditOutcome) (p : CustomPlayer) :
  reason <> 0%Z -> reason <> 1%Z ->
  on_wavelink_track_end reason o (Some p) = Returned tt (Some p) [].
Proof.
  intros H0 H1. destruct (reason_other H0 H1) as [E0 E1].
  unfold on_wavelink_track_end. rewrite E0, E1. reflexivity.
Qed.

Lemma track_end_other_reason_ignored_witness :
  on_wavelink_track_end 2 Edited (Some (session (Some track_A) [track_B] [] 2))
    = Returned tt (Some (session (Some track_A) [track_B] [] 2)) [].
Proof.
  apply track_end_other_reason_ignored; lia.
Defined.

(** C1. A track-end event with reason 1 (stopped) does what one with
    reason 0 (finished) does only when the queue holds a track.  On an empty
    queue it runs [disconnect_and_clean_up] and nothing else, whatever the
    loop mode and the history: queue and history end empty, the loop mode is
    0, the track loaded is not touched and no track is played.  When no
    message is kept, or its edit went through or raised [discord.NotFound],
    the listener returns, the message is dropped and the one command to the
    backend is the disconnect; when the edit of a kept message raises
    another error the exception leaves the listener with the message kept and
    the backend not contacted.
    A track-end event with reason 0 always runs the whole of
    [play_next_track_from_custom_queue]: in loop mode 1 with a track loaded
    that track is played again; otherwise, on a queue [x :: q'], [x] is
    loaded, the queue is [q'] and the track that ended is appended to the
    history; otherwise, in loop mode 2 with a history [a :: rest], the
    history is drained into the queue, [a] is loaded, the queue is [rest] and
    the history holds just the track that ended; otherwise it runs
    [disconnect_and_clean_up]. *)
Theorem track_stopped_empty_queue_disconnects (o : EditOutcome) (p : CustomPlayer) :
  (_custom_queue p <> [] ->
   on_wavelink_track_end 1 o (Some p) = on_wavelink_track_end 0 o (Some p))
  /\ (_custom_queue p = [] ->
      let r := on_wavelink_track_end 1 o (Some p) in
      r = as_client (disconnect_and_clean_up o p)
      /\ (exists p', final r = Some p'
            /\ _custom_queue p' = [] /\ history p' = []
            /\ loop_mode p' = 0%Z /\ current p' = current p)
      /\ (forall t, ~ In (BackendPlay t) (output r))
      /\ (current_message p = None \/ o <> OtherError ->
          returns r = true
          /\ final r = Some {| current := current p; playing := false;
                               paused := paused p; volume := volume p;
                               _custom_queue := []; history := [];
                               loop_mode := 0; current_message := None |}
          /\ backend_commands (output r) = [BackendDisconnect])
      /\ (forall m, current_message p = Some m -> o = OtherError ->
          r = Raised
                (Some {| current := current p; playing := playing p;
                         paused := paused p; volume := volume p;
                         _custom_queue := []; history := [];
                         loop_mode := 0; current_message := Some m |})
                [EditContent m "Queue finished. Disconnected from voice."]))
  /\ (forall c, loop_mode p = 1%Z -> current p = Some c ->
      exists out,
        on_wavelink_track_end 0 o (Some p)
          = Returned tt
              (Some {| current := Some c; playing := true; paused := paused p;
                       volume := volume p; _custom_queue := _custom_queue p;
                       history := history p; loop_mode := loop_mode p;
                       current_message := match o with
                                          | NotFound => None
                                          | _ => current_message p
                                          end |}) out
        /\ backend_commands out = [BackendPlay c])
  /\ (forall x q', loop_mode p <> 1%Z \/ current p = None ->
      _custom_queue p = x :: q' ->
      exists out,
        on_wavelink_track_end 0 o (Some p)
          = Returned tt
              (Some {| current := Some x; playing := true; paused := paused p;
                       volume := volume p; _custom_queue := q';
                       history := match current p with
                                  | Some c => history_append c (history p)
                                  | None => history p
                                  end;
                       loop_mode := loop_mode p;
                       current_message := match o with
                                          | NotFound => None
                                          | _ => current_message p
                                          end |}) out
        /\ backend_commands out = [BackendPlay x])
  /\ (forall a rest, _custom_queue p = [] -> loop_mode p = 2%Z ->
      history p = a :: rest ->
      exists out,
        on_wavelink_track_end 0 o (Some p)
          = Returned tt
              (Some {| current := Some a; playing := true; paused := paused p;
                       volume := volume p; _custom_queue := rest;
                       history := match current p with
                                  | Some c => [c]
                                  | None => []
                                  end;
                       loop_mode := 2;
                       current_message := match o with
                                          | NotFound => None
                                          | _ => current_message p
                                          end |}) out
        /\ backend_commands out = [BackendPlay a])
  /\ (_custom_queue p = [] ->
      loop_mode p <> 1%Z \/ current p = None ->
      loop_mode p <> 2%Z \/ history p = [] ->
      on_wavelink_track_end 0 o (Some p)
        = as_client (disconnect_and_clean_up o p)).
Proof.
  assert (on_wavelink_track_end 0 o (Some p)
          = as_client (play_next_track_from_custom_queue o p)) as Efin
    by reflexivity.
  split; [|split; [|split; [|split; [|split]]]].
  - intros Hq. unfold on_wavelink_track_end. simpl.
    destruct (_custom_queue p); [contradiction|reflexivity].
  - intros Hq.
    assert (on_wavelink_track_end 1 o (Some p)
            = as_client (disconnect_and_clean_up o p)) as Estop.
    { unfold on_wavelink_track_end. simpl. rewrite Hq. reflexivity. }
    cbv zeta. rewrite Estop.
    split; [reflexivity|]. split; [|split; [|split]].
    + open_player p. step_coro.
      destruct cm as [m|]; [destruct o|]; simpl; eexists; repeat split.
    + intros t. open_player p. step_coro.
      destruct cm as [m|]; [destruct o|]; simpl; intros Hin;
        repeat (destruct Hin as [Hin|Hin]; [discriminate Hin|]); exact Hin.
    + intros Hok.
      destruct (disconnect_and_clean_up_completes p Hok) as (out & -> & Hout).
      repeat split. exact Hout.
    + intros m Hm ->. now rewrite (disconnect_and_clean_up_aborts p Hm).
  - intros c Hl Hc. rewrite Efin, (play_next_replays o p Hl Hc).
    destruct (replay_spec o p c) as (out & -> & Hout).
    exists out. split; [reflexivity | exact Hout].
  - intros x q' Hloop Hq.
    exact (track_end_advances o p (or_introl eq_refl) Hloop Hq).
  - intros a rest Hq Hl Hh.
    rewrite Efin, (play_next_drains_history o p Hl Hq Hh).
    destruct (@play_next_tail_cons o
                (set_history [] (set_custom_queue (a :: rest) p)) a rest eq_refl)
      as (out & -> & Hout).
    exists out. split; [|exact Hout].
    simpl. rewrite Hl. destruct (current p); reflexivity.
  - intros Hq H1 H2. rewrite Efin.
    now rewrite (play_next_disconnects o p Hq H1 H2).
Qed.

Lemma track_stopped_empty_queue_disconnects_witness :
  final (on_wavelink_track_end 1 Edited
           (Some (session (Some track_C) [] [track_A; track_B] 2)))
    = Some {| current := Some track_C; playing := false; paused := false;
              volume := 100; _custom_queue := []; history := [];
              loop_mode := 0; current_message := None |}
  /\ on_wavelink_track_end 1 OtherError
       (Some (session (Some track_C) [] [track_A; track_B] 2))
     = Raised
         (Some {| current := Some track_C; playing := true; paused := false;
                  volume := 100; _custom_queue := []; history := [];
                  loop_mode := 0; current_message := Some 1%nat |})
         [EditContent 1%nat "Queue finished. Disconnected from voice."]
  /\ (exists out,
        on_wavelink_track_end 0 Edited
          (Some (session (Some track_C) [] [track_A; track_B] 2))
          = Returned tt (Some (session (Some track_A) [track_B] [track_C] 2)) out
        /\ backend_commands out = [BackendPlay track_A])
  /\ on_wavelink_track_end 1 Edited
       (Some (session (Some track_A) [track_B] [] 0))
     = on_wavelink_track_end 0 Edited
         (Some (session (Some track_A) [track_B] [] 0)).
Proof.
  destruct (track_stopped_empty_queue_disconnects Edited
              (session (Some track_C) [] [track_A; track_B] 2))
    as (_ & Hstop & _ & _ & Hdrain & _).
  destruct (track_stopped_empty_queue_disconnects OtherError
              (session (Some track_C) [] [track_A; track_B] 2))
    as (_ & Hstop' & _).
  destruct (track_stopped_empty_queue_disconnects Edited
              (session (Some track_A) [track_B] [] 0))
    as (Hsame & _).
  split; [|split; [|split]].
  - destruct (Hstop eq_refl) as (_ & _ & _ & Hok & _).
    destruct Hok as (_ & Hfinal & _); [right; discriminate | exact Hfinal].
  - destruct (Hstop' eq_refl) as (_ & _ & _ & _ & Habort).
    exact (Habort 1%nat eq_refl eq_refl).
  - exact (Hdrain track_A [track_B] eq_refl eq_refl eq_refl).
  - apply Hsame. discriminate.
Defined.

(** C2. Loop mode 2, empty queue, history [a :: rest], track finished: the
    drain puts the whole history into the queue in its oldest-first order and
    empties the history; the tail of the function then runs on that player.
    The listener returns; afterwards [a] is the current track, the queue is
    exactly [rest], and the only entry of the history is the track that had
    just ended, if there was one.  The backend was told to play [a]. *)
Theorem loop_queue_finished_restarts_from_history
    (o : EditOutcome) (p : CustomPlayer) (a : Playable) (rest : list Playable) :
  loop_mode p = 2%Z -> _custom_queue p = [] -> history p = a :: rest ->
  Queue.put_all (history p) (_custom_queue p) = history p
  /\ play_next_track_from_custom_queue o p
     = play_next_tail o (set_history [] (set_custom_queue (history p) p))
  /\ exists out,
       on_wavelink_track_end 0 o (Some p)
         = Returned tt
             (Some {| current := Some a; playing := true; paused := paused p;
                      volume := volume p; _custom_queue := rest;
                      history := match current p with
                                 | Some c => [c]
                                 | None => []
                                 end;
                      loop_mode := 2;
                      current_message := match o with
                                         | NotFound => None
                                         | _ => current_message p
                                         end |}) out
       /\ backend_commands out = [BackendPlay a].
Proof.
  intros Hl Hq Hh.
  split; [now rewrite put_all_app, Hq|].
  split; [rewrite Hh; now apply play_next_drains_history|].
  unfold on_wavelink_track_end. simpl.
  rewrite (play_next_drains_history o p Hl Hq Hh).
  destruct (@play_next_tail_cons o
              (set_history [] (set_custom_queue (a :: rest) p)) a rest eq_refl)
    as (out & -> & Hout).
  exists out. split; [|exact Hout].
  simpl. rewrite Hl. destruct (current p); reflexivity.
Qed.

Lemma loop_queue_finished_restarts_from_history_witness :
  exists out,
    on_wavelink_track_end 0 Edited (Some (session None [] [track_A; track_B] 2))
      = Returned tt (Some (session (Some track_A) [track_B] [] 2)) out
    /\ backend_commands out = [BackendPlay track_A].
Proof.
  destruct (@loop_queue_finished_restarts_from_history Edited
              (session None [] [track_A; track_B] 2) track_A [track_B]
              eq_refl eq_refl eq_refl) as (_ & _ & out & H & Hout).
  exists out. split; [exact H | exact Hout].
Defined.

(** C3. Loop mode 1 with a current track, track finished: the listener
    returns, the backend is told to play the same track again, the current
    track is the same, and history, queue and loop mode are those of before;
    the replayed track is not added to the history. *)
Theorem loop_song_finished_replays_current
    (o : EditOutcome) (p : CustomPlayer) (c : Playable) :
  loop_mode p = 1%Z -> current p = Some c ->
  exists p' out,
    on_wavelink_track_end 0 o (Some p) = Returned tt (Some p') out
    /\ current p' = Some c
    /\ history p' = history p
    /\ _custom_queue p' = _custom_queue p
    /\ loop_mode p' = 1%Z
    /\ backend_commands out = [BackendPlay c].
Proof.
  intros Hl Hc. open_player p. step_coro.
  destruct cm as [m|], o; simpl; do 2 eexists; repeat split.
Qed.

Lemma loop_song_finished_replays_current_witness :
  exists p' out,
    on_wavelink_track_end 0 Edited
      (Some (session (Some track_A) [track_B] [track_C] 1))
      = Returned tt (Some p') out
    /\ current p' = Some track_A
    /\ history p' = [track_C]
    /\ _custom_queue p' = [track_B]
    /\ loop_mode p' = 1%Z
    /\ backend_commands out = [BackendPlay track_A].
Proof.
  exact (@loop_song_finished_replays_current Edited
           (session (Some track_A) [track_B] [track_C] 1) track_A
           eq_refl eq_refl).
Defined.

(** ** The buttons *)

(** C4. [previous_button] answers "No previous song in history." exactly
    when the history is empty, and then leaves the player as it was.  When
    the history is [h ++ [t]] it returns with [t] as the current track and
    [h] as the history (one entry less), the track that was current, if any,
    in front of the queue's earlier content, which keeps its order, and the
    backend told to play [t]. *)
Theorem previous_button_pops_history (o : EditOutcome) (p : CustomPlayer) :
  (history p = [] ->
   previous_button o (Some p)
     = Returned tt (Some p) [Defer; Followup "No previous song in history."])
  /\ (forall h t, history p = h ++ [t] ->
      exists out,
        previous_button o (Some p)
          = Returned tt
              (Some {| current := Some t; playing := true; paused := paused p;
                       volume := volume p;
                       _custom_queue := match current p with
                                        | Some c => c :: _custom_queue p
                                        | None => _custom_queue p
                                        end;
                       history := h;
                       loop_mode := loop_mode p;
                       current_message := match o with
                                          | NotFound => None
                                          | _ => current_message p
                                          end |}) out
        /\ backend_commands out = [BackendPlay t]
        /\ (List.length h + 1 = List.length (history p))%nat)
  /\ (In (Followup "No previous song in history.")
         (output (previous_button o (Some p)))
      <-> history p = []).
Proof.
  assert (forall h t, history p = h ++ [t] ->
          exists out,
            previous_button o (Some p)
              = Returned tt
                  (Some {| current := Some t; playing := true; paused := paused p;
                           volume := volume p;
                           _custom_queue := match current p with
                                            | Some c => c :: _custom_queue p
                                            | None => _custom_queue p
                                            end;
                           history := h;
                           loop_mode := loop_mode p;
                           current_message := match o with
                                              | NotFound => None
                                              | _ => current_message p
                                              end |}) out
            /\ backend_commands out = [BackendPlay t]
            /\ ~ In (Followup "No previous song in history.") out) as Hpop.
  { intros h t Hh. open_player p. step_coro. rewrite list_pop_snoc.
    destruct c as [c|]; simpl; try rewrite transfer_app;
      destruct cm as [m|], o; simpl; eexists; (split; [reflexivity|]);
      (split; [reflexivity|]);
      intros Hin; simpl in Hin;
      repeat (destruct Hin as [Hin|Hin]; [discriminate Hin|]); exact Hin. }
  split; [|split].
  - intros Hh. open_player p. reflexivity.
  - intros h t Hh. destruct (Hpop h t Hh) as (out & E & Hb & _).
    exists out. repeat split; try assumption.
    rewrite Hh, length_app. reflexivity.
  - split.
    + intros Hin. destruct (list_pop (history p)) as [[h t]|] eqn:E.
      * apply list_pop_some in E.
        destruct (Hpop h t E) as (out & Eo & _ & Hnot).
        rewrite Eo in Hin. contradiction.
      * now apply list_pop_none.
    + intros Hh. open_player p. simpl. auto.
Qed.

Lemma previous_button_pops_history_witness :
  previous_button Edited (Some (session (Some track_C) [track_B] [] 0))
    = Returned tt (Some (session (Some track_C) [track_B] [] 0))
        [Defer; Followup "No previous song in history."]
  /\ exists out,
       previous_button Edited
         (Some (session (Some track_C) [track_B] [track_A] 0))
         = Returned tt (Some (session (Some track_A) [track_C; track_B] [] 0)) out
       /\ backend_commands out = [BackendPlay track_A].
Proof.
  split.
  - apply (previous_button_pops_history Edited
             (session (Some track_C) [track_B] [] 0)). reflexivity.
  - destruct (previous_button_pops_history Edited
                (session (Some track_C) [track_B] [track_A] 0))
      as (_ & Hpop & _).
    destruct (Hpop [] track_A eq_refl) as (out & E & Hb & _).
    exists out. split; [exact E | exact Hb].
Defined.

(** ** The history stays short *)

Lemma play_next_bounded (o : EditOutcome) (p : CustomPlayer) :
  bounded (Some p) ->
  bounded (Some (final (play_next_track_from_custom_queue o p))).
Proof.
  unfold bounded. intros Hb.
  destruct (play_next_cases o p)
    as [(c & _ & _ & E)|[(next & q' & Hq & E)|[(a & rest & _ & _ & _ & E)|[_ E]]]];
    rewrite E.
  - destruct (replay_spec o p c) as (out & -> & _). exact Hb.
  - destruct (play_next_tail_cons o p Hq) as (out & -> & _). simpl.
    destruct (current p); [now apply history_append_bounded | exact Hb].
  - destruct (@play_next_tail_cons o
                (set_history [] (set_custom_queue (a :: rest) p)) a rest eq_refl)
      as (out & -> & _). simpl.
    destruct (current p); simpl; lia.
  - destruct (disconnect_and_clean_up_resets o p) as (_ & -> & _). simpl. lia.
Qed.

Lemma disconnect_bounded (o : EditOutcome) (p : CustomPlayer) :
  bounded (Some (final (disconnect_and_clean_up o p))).
Proof.
  simpl. destruct (disconnect_and_clean_up_resets o p) as (_ & -> & _).
  simpl. lia.
Qed.

Lemma previous_bounded (o : EditOutcome) (vc : option CustomPlayer) :
  bounded vc -> bounded (final (previous_button o vc)).
Proof.
  destruct vc as [p|]; [|exact (fun H => H)].
  intros Hb. open_player p. step_coro.
  destruct (list_pop h) as [[h' t]|] eqn:E; simpl.
  - apply list_pop_some in E. subst h.
    rewrite length_app in Hb. simpl in Hb.
    destruct c, cm, o; simpl; lia.
  - exact Hb.
Qed.

(** No event lets the history grow past ten tracks. *)
Lemma dispatch_bounded (ev : Event) (vc : option CustomPlayer) :
  bounded vc -> bounded (final (dispatch ev vc)).
Proof.
  destruct ev; simpl; try (now apply previous_bounded).
  - (* TrackEnd *)
    destruct vc as [p|]; [|exact (fun H => H)].
    intros Hb. unfold on_wavelink_track_end. rewrite final_as_client.
    destruct (reason =? 0)%Z; [now apply play_next_bounded|].
    destruct (reason =? 1)%Z; [|exact Hb].
    destruct (negb _); [now apply play_next_bounded | apply disconnect_bounded].
  - (* Resume *)
    destruct vc as [p|]; [|exact (fun H => H)].
    intros Hb. open_player p. step_coro. split_ifs; exact Hb.
  - (* Pause *)
    destruct vc as [p|]; [|exact (fun H => H)].
    intros Hb. open_player p. step_coro. split_ifs; exact Hb.
  - (* Skip *)
    destruct vc as [p|]; [|exact (fun H => H)].
    intros Hb. open_player p. step_coro. split_ifs; exact Hb.
  - (* Stop *)
    destruct vc as [p|]; [|exact (fun H => H)].
    intros _. open_player p. step_coro.
    destruct cm as [m|]; [destruct o|]; simpl; lia.
  - (* ShowQueue *)
    destruct vc as [p|]; [|exact (fun H => H)].
    intros Hb. open_player p. step_coro. split_ifs; exact Hb.
  - (* Shuffle *)
    destruct vc as [p|]; [|exact (fun H => H)].
    intros Hb. open_player p. step_coro. split_ifs; exact Hb.
  - (* Loop *)
    destruct vc as [p|]; [|exact (fun H => H)].
    intros Hb. open_player p. step_coro. split_ifs; exact Hb.
  - (* VolUp *)
    destruct vc as [p|]; [|exact (fun H => H)].
    intros Hb. open_player p. exact Hb.
  - (* VolDown *)
    destruct vc as [p|]; [|exact (fun H => H)].
    intros Hb. open_player p. exact Hb.
  - (* Join *)
    intros Hb. unfold join. destruct user_voice; simpl; [|exact Hb].
    destruct vc; simpl; [exact Hb | lia].
  - (* Play *)
    intros Hb. unfold play.
    destruct vc as [p|]; [|destruct user_voice]; simpl; try exact I.
    + destruct found as [|t more]; [exact Hb|].
      open_player p. step_coro. split_ifs; exact Hb.
    + destruct found as [|t more]; simpl; lia.
  - (* TaskPlayNext *)
    destruct vc as [p|]; [|exact (fun H => H)].
    intros Hb. rewrite final_as_client. now apply play_next_bounded.
  - (* LibraryUpdate *)
    destruct vc as [p|]; [|exact (fun H => H)].
    intros Hb. exact Hb.
  - (* ClientDropped *)
    intros _. exact I.
Qed.

Lemma run_reachable (evs : list Event) (vc : option CustomPlayer) :
  reachable vc -> reachable (run evs vc).
Proof.
  revert vc; induction evs as [|ev evs IH]; intros vc Hr; simpl.
  - exact Hr.
  - apply IH. now constructor.
Qed.

(** C5. In every reachable state of a guild's voice client the history
    holds at most ten tracks.  Appending to a history of ten drops its first
    (oldest) entry and keeps the others in order, and appending never leaves
    more than ten.  Appending tracks 1 to 15 to an empty history leaves
    exactly tracks 6 to 15, in order; so does a session in which tracks 1 to
    16 are requested and the first fifteen finish. *)
Theorem history_never_exceeds_ten :
  (forall vc p, reachable vc -> vc = Some p ->
     (List.length (history p) <= 10)%nat)
  /\ (forall t x h, List.length (x :: h) = 10%nat ->
        history_append t (x :: h) = h ++ [t])
  /\ (forall t h, (List.length h <= 10)%nat ->
        (List.length (history_append t h) <= 10)%nat)
  /\ fold_left (fun h t => history_append t h) (playlist 1 15) []
     = playlist 6 10
  /\ exists p, run (listening 16) None = Some p
       /\ history p = playlist 6 10
       /\ current p = Some (numbered 16)
       /\ _custom_queue p = [].
Proof.
  split; [|split; [|split; [|split]]].
  - intros vc p Hr. revert p.
    assert (bounded vc) as Hb.
    { induction Hr as [|ev vc Hr IH]; [exact I | now apply dispatch_bounded]. }
    intros p ->. exact Hb.
  - intros t x h. apply history_append_full.
  - intros t h. apply history_append_bounded.
  - vm_compute. reflexivity.
  - eexists. split; [vm_compute; reflexivity|].
    repeat split; vm_compute; reflexivity.
Qed.

Lemma history_never_exceeds_ten_witness :
  exists p, run (listening 16) None = Some p
    /\ (List.length (history p) <= 10)%nat
    /\ history_append (numbered 11) (playlist 1 10) = playlist 2 10.
Proof.
  destruct history_never_exceeds_ten as (Hreach & Hfull & _ & _ & p & Hrun & _).
  exists p. split; [exact Hrun|]. split.
  - apply (Hreach (run (listening 16) None) p); [|exact Hrun].
    apply run_reachable. constructor.
  - apply (Hfull (numbered 11) (numbered 1) (playlist 2 9)). reflexivity.
Defined.

(** ** Requests *)

(** C6. [/play] with a track found, on a connected player: the handler
    returns, and either the player reported no track playing, and then the
    track is the current one and the backend was told to play it, queue and
    history untouched; or the player reported a track playing, and then the
    track is the new last element of the queue, nothing else changed and the
    backend heard nothing.  Either way the track is in the session.  A user
    in a voice channel without a voice client gets a fresh player that plays
    the track.  When the track is started over a queue that is not empty the
    handler creates the task that plays the next track; once that task has
    run, the track is still the current one (loop mode 1) or the newest entry
    of the history. *)
Theorem play_starts_or_enqueues
    (query mention : string) (msg : Message) (user_voice : bool)
    (t : Playable) (more : list Playable) (p : CustomPlayer) :
  let r := play query user_voice (t :: more) mention msg (Some p) in
  returns r = true
  /\ (playing p = false ->
      final r = Some {| current := Some t; playing := true; paused := paused p;
                        volume := volume p; _custom_queue := _custom_queue p;
                        history := history p; loop_mode := loop_mode p;
                        current_message := Some msg |}
      /\ backend_commands (output r) = [BackendPlay t])
  /\ (playing p = true ->
      final r = Some (set_custom_queue (_custom_queue p ++ [t]) p)
      /\ backend_commands (output r) = [])
  /\ (exists p', final r = Some p'
        /\ (current p' = Some t \/ _custom_queue p' = _custom_queue p ++ [t]))
  /\ final (play query true (t :: more) mention msg None)
     = Some {| current := Some t; playing := true; paused := false;
               volume := 100; _custom_queue := []; history := [];
               loop_mode := 0; current_message := Some msg |}
  /\ (playing p = false -> _custom_queue p <> [] ->
      In CreateTask_play_next (output r)
      /\ forall o, exists p2,
           final (dispatch (TaskPlayNext o) (final r)) = Some p2
           /\ (current p2 = Some t \/ exists l, history p2 = l ++ [t])).
Proof.
  assert (playing p = false ->
          final (play query user_voice (t :: more) mention msg (Some p))
          = Some {| current := Some t; playing := true; paused := paused p;
                    volume := volume p; _custom_queue := _custom_queue p;
                    history := history p; loop_mode := loop_mode p;
                    current_message := Some msg |}) as Hidle.
  { intros Hp. open_player p. step_coro. destruct q; reflexivity. }
  cbv zeta. split; [|split; [|split; [|split; [|split]]]].
  - open_player p. step_coro. destruct pl, q; reflexivity.
  - intros Hp. split; [now apply Hidle|].
    open_player p. step_coro. destruct q; reflexivity.
  - intros Hp. open_player p. split; reflexivity.
  - destruct (playing p) eqn:Hp.
    + eexists. split; [open_player p; reflexivity|]. now right.
    + eexists. split; [now apply Hidle|]. now left.
  - reflexivity.
  - intros Hp Hq. split.
    { open_player p. step_coro.
      destruct q; [contradiction|]. simpl. auto. }
    intros o. rewrite (Hidle Hp). simpl. rewrite final_as_client.
    eexists. split; [reflexivity|].
    match goal with
    | |- context [play_next_track_from_custom_queue o ?s] =>
        destruct (play_next_cases o s)
          as [(c & _ & Hc & E)|[(next & q' & Hq' & E)|
              [(a & rest & _ & Hq' & _)|[Hq' _]]]];
        try (simpl in Hq'; contradiction)
    end.
    + rewrite E. simpl in Hc.
      match goal with
      | |- context [(Player.play c ;; update_now_playing_message o) ?s] =>
          destruct (replay_spec o s c) as (out & -> & _)
      end.
      left. simpl. congruence.
    + rewrite E.
      match goal with
      | |- context [play_next_tail o ?s] =>
          destruct (play_next_tail_cons o s Hq') as (out & -> & _)
      end.
      right. simpl. apply history_append_last.
Qed.

Lemma play_starts_or_enqueues_witness :
  final (play "A" true [track_A] "@user" 2%nat (Some CustomPlayer_init))
    = Some {| current := Some track_A; playing := true; paused := false;
              volume := 100; _custom_queue := []; history := [];
              loop_mode := 0; current_message := Some 2%nat |}
  /\ final (play "B" true [track_B] "@user" 3%nat
              (Some (session (Some track_A) [] [] 0)))
     = Some (session (Some track_A) [track_B] [] 0).
Proof.
  split.
  - destruct (@play_starts_or_enqueues "A" "@user" 2%nat true track_A []
                CustomPlayer_init) as (_ & Hidle & _).
    destruct (Hidle eq_refl) as [Hfinal _]. exact Hfinal.
  - destruct (@play_starts_or_enqueues "B" "@user" 3%nat true track_B []
                (session (Some track_A) [] [] 0)) as (_ & _ & Hbusy & _).
    destruct (Hbusy eq_refl) as [Hfinal _]. exact Hfinal.
Defined.

(** C7, as the code has it. [skip_button] returns and never changes the
    player itself.  With no current track, an empty queue and a loop mode
    other than 2 it answers "No more songs in the queue to skip to." and the
    backend hears nothing.  Otherwise, when the player reports playing or
    paused, the backend is told to stop, once, and the player changes only
    when the track-end event arrives; when it reports neither, the answer is
    "No music playing to skip." and the backend hears nothing. *)
Theorem skip_button_stops_when_playing_or_paused (p : CustomPlayer) :
  let r := skip_button (Some p) in
  returns r = true
  /\ final r = Some p
  /\ (nothing_to_skip_to p = true ->
      output r = [Defer; Followup "No more songs in the queue to skip to."])
  /\ (nothing_to_skip_to p = false -> playing p || paused p = true ->
      output r = [Defer; BackendStop; Followup "Skipped song!"])
  /\ (nothing_to_skip_to p = false -> playing p || paused p = false ->
      output r = [Defer; Followup "No music playing to skip."]).
Proof.
  unfold nothing_to_skip_to. open_player p. step_coro.
  destruct c, q, (lm =? 2)%Z, pl, pa; simpl;
    repeat split; intros; try discriminate; reflexivity.
Qed.

Lemma skip_button_stops_when_playing_or_paused_witness :
  output (skip_button (Some (session (Some track_A) [track_B] [] 0)))
    = [Defer; BackendStop; Followup "Skipped song!"]
  /\ output (skip_button (Some (session None [] [track_A] 0)))
     = [Defer; Followup "No more songs in the queue to skip to."]
  /\ output (skip_button (Some (session None [track_B] [] 0)))
     = [Defer; Followup "No music playing to skip."].
Proof.
  split; [|split].
  - apply (skip_button_stops_when_playing_or_paused
             (session (Some track_A) [track_B] [] 0)); reflexivity.
  - apply (skip_button_stops_when_playing_or_paused
             (session None [] [track_A] 0)); reflexivity.
  - apply (skip_button_stops_when_playing_or_paused
             (session None [track_B] [] 0)); reflexivity.
Defined.

(** C7 as stated fails, also on reachable players: on a player with no
    current track, left paused in loop mode 2, [skip_button] does not refuse;
    it tells the backend to stop and answers "Skipped song!". *)
Lemma skip_button_refuses_iff_no_current_fails :
  ~ (forall p, reachable (Some p) ->
       (refused p (skip_button (Some p)) <-> current p = None)).
Proof.
  intros H.
  assert (reachable (Some paused_idle)) as Hr.
  { change (Some paused_idle) with (run to_paused_idle None).
    apply run_reachable. constructor. }
  destruct (H paused_idle Hr) as [_ Hno].
  destruct (Hno eq_refl) as [_ Hout]. discriminate Hout.
Qed.

(** ** Shutdown and volume *)

(** C8. [disconnect_and_clean_up] always leaves the queue empty, the
    history empty and the loop mode 0.  When no message is kept, or the edit
    of the farewell text goes through or raises [discord.NotFound], it
    returns with no message kept and the backend told to disconnect; run
    again on the player it left it returns the very same player and only
    asks the backend to disconnect once more, and the Stop button leaves the
    same player.  When a message is kept and its edit raises another error,
    the exception leaves the function: the message is still kept, the
    backend was never told to disconnect, and the Stop button ends the same
    way; the terminal state is not reached. *)
Theorem disconnect_and_clean_up_terminal_unless_edit_raises
    (o o2 : EditOutcome) (p : CustomPlayer) :
  let r1 := disconnect_and_clean_up o p in
  let r2 := disconnect_and_clean_up o2 (final r1) in
  (_custom_queue (final r1) = []
   /\ history (final r1) = []
   /\ loop_mode (final r1) = 0%Z)
  /\ (current_message p = None \/ o <> OtherError ->
      returns r1 = true /\ returns r2 = true
      /\ current_message (final r1) = None
      /\ backend_commands (output r1) = [BackendDisconnect]
      /\ final r2 = final r1
      /\ output r2 = [BackendDisconnect]
      /\ final (stop_button o (Some p)) = Some (final r1))
  /\ (forall m, current_message p = Some m -> o = OtherError ->
      r1 = Raised
             {| current := current p; playing := playing p;
                paused := paused p; volume := volume p;
                _custom_queue := []; history := [];
                loop_mode := 0; current_message := Some m |}
             [EditContent m "Queue finished. Disconnected from voice."]
      /\ returns r1 = false
      /\ current_message (final r1) = Some m
      /\ backend_commands (output r1) = []
      /\ stop_button o (Some p)
         = Raised (Some (final r1))
             [Defer; EditContent m "Queue finished. Disconnected from voice."]).
Proof.
  cbv zeta. split; [|split].
  - destruct (disconnect_and_clean_up_resets o p) as (Hq & Hh & Hl & _). auto.
  - intros Hok.
    destruct (disconnect_and_clean_up_completes p Hok) as (out1 & E1 & Hout1).
    assert (final (stop_button o (Some p))
            = Some (final (disconnect_and_clean_up o p))) as Hstop.
    { unfold stop_button. rewrite final_as_client.
      unfold bind at 1. cbn [call].
      unfold bind. rewrite E1. reflexivity. }
    rewrite Hstop, E1. cbn [final returns output].
    match goal with
    | |- context [disconnect_and_clean_up o2 ?s] =>
        assert (disconnect_and_clean_up o2 s = Returned tt s [BackendDisconnect])
          as E2 by reflexivity
    end.
    rewrite E2. cbn [final returns output]. repeat split. exact Hout1.
  - intros m Hm ->.
    unfold stop_button, bind at 1. cbn [call]. unfold bind.
    rewrite (disconnect_and_clean_up_aborts p Hm). repeat split.
Qed.

Lemma disconnect_and_clean_up_terminal_unless_edit_raises_witness :
  disconnect_and_clean_up OtherError (session (Some track_A) [track_B] [track_C] 2)
    = Raised
        {| current := Some track_A; playing := true; paused := false;
           volume := 100; _custom_queue := []; history := [];
           loop_mode := 0; current_message := Some 1%nat |}
        [EditContent 1%nat "Queue finished. Disconnected from voice."]
  /\ final (disconnect_and_clean_up Edited
              (session (Some track_A) [track_B] [track_C] 2))
     = {| current := Some track_A; playing := false; paused := false;
          volume := 100; _custom_queue := []; history := [];
          loop_mode := 0; current_message := None |}.
Proof.
  destruct (disconnect_and_clean_up_terminal_unless_edit_raises OtherError Edited
              (session (Some track_A) [track_B] [track_C] 2))
    as (_ & _ & Habort).
  destruct (disconnect_and_clean_up_terminal_unless_edit_raises Edited Edited
              (session (Some track_A) [track_B] [track_C] 2))
    as (_ & Hok & _).
  split.
  - exact (proj1 (Habort 1%nat eq_refl eq_refl)).
  - destruct Hok as (_ & _ & _ & _ & Hsame & _); [right; discriminate|].
    exact Hsame.
Defined.

(** C9. From a volume between 0 and 1000, Vol + sets the volume to
    [min 1000 (v + 100)] and Vol - sets it to [max 0 (v - 100)]; these are
    the values handed to the backend, and both lie between 0 and 1000.  From
    950 Vol + gives 1000; from 50 Vol - gives 0. *)
Theorem volume_buttons_clamp (p : CustomPlayer) :
  (0 <= volume p <= 1000)%Z ->
  let up := vol_up_button (Some p) in
  let down := vol_down_button (Some p) in
  final up = Some (set_volume_field (Z.min 1000 (volume p + 100)) p)
  /\ backend_commands (output up)
     = [BackendSetVolume (Z.min 1000 (volume p + 100))]
  /\ final down = Some (set_volume_field (Z.max 0 (volume p - 100)) p)
  /\ backend_commands (output down)
     = [BackendSetVolume (Z.max 0 (volume p - 100))]
  /\ (0 <= Z.min 1000 (volume p + 100) <= 1000)%Z
  /\ (0 <= Z.max 0 (volume p - 100) <= 1000)%Z
  /\ (volume p = 950%Z -> final up = Some (set_volume_field 1000 p))
  /\ (volume p = 50%Z -> final down = Some (set_volume_field 0 p)).
Proof.
  intros Hv.
  assert (Z.max (Z.min (Z.min 1000 (volume p + 100)) 1000) 0
          = Z.min 1000 (volume p + 100)) as Eup by lia.
  assert (Z.max (Z.min (Z.max 0 (volume p - 100)) 1000) 0
          = Z.max 0 (volume p - 100)) as Edown by lia.
  assert (final (vol_up_button (Some p))
          = Some (set_volume_field (Z.min 1000 (volume p + 100)) p)) as Fup.
  { unfold vol_up_button. rewrite final_as_client.
    cbv [bind call attr assign Player.set_volume final]. now rewrite Eup. }
  assert (final (vol_down_button (Some p))
          = Some (set_volume_field (Z.max 0 (volume p - 100)) p)) as Fdown.
  { unfold vol_down_button. rewrite final_as_client.
    cbv [bind call attr assign Player.set_volume final]. now rewrite Edown. }
  cbv zeta. repeat split; try assumption; try reflexivity; try lia.
  - intros E. rewrite Fup, E. reflexivity.
  - intros E. rewrite Fdown, E. reflexivity.
Qed.

Lemma volume_buttons_clamp_witness :
  final (vol_up_button (Some (set_volume_field 950 CustomPlayer_init)))
    = Some (set_volume_field 1000 CustomPlayer_init)
  /\ final (vol_down_button (Some (set_volume_field 50 CustomPlayer_init)))
     = Some (set_volume_field 0 CustomPlayer_init).
Proof.
  split.
  - destruct (@volume_buttons_clamp (set_volume_field 950 CustomPlayer_init))
      as (Hup & _); [simpl; lia|]. exact Hup.
  - destruct (@volume_buttons_clamp (set_volume_field 50 CustomPlayer_init))
      as (_ & _ & Hdown & _); [simpl; lia|]. exact Hdown.
Defined.

(** ** Further properties of the handlers *)

Lemma queue_button_keeps_player_aux (p : CustomPlayer) :
  final (queue_button (Some p)) = Some p
  /\ backend_commands (output (queue_button (Some p))) = [].
Proof.
  assert (Queue.put_all (Queue.transfer (_custom_queue p) []) Queue.new
          = _custom_queue p) as Hback.
  { now rewrite put_all_app, transfer_app. }
  unfold Queue.new in Hback.
  open_player p. unfold_coro. rewrite Hback, !transfer_app.
  destruct c as [c|], q as [|x q]; simpl; split; reflexivity.
Qed.

Lemma returns_as_client (r : Outcome CustomPlayer unit) :
  returns (as_client r) = returns r.
Proof. destruct r; reflexivity. Qed.

Lemma output_as_client (r : Outcome CustomPlayer unit) :
  output (as_client r) = output r.
Proof. destruct r; reflexivity. Qed.





(** X2. The Queue button leaves the player exactly as it found it: the
    tracks taken out of the queue for display go back in the same order, and
    the backend hears nothing. *)
Theorem queue_button_keeps_player (p : CustomPlayer) :
  final (queue_button (Some p)) = Some p
  /\ backend_commands (output (queue_button (Some p))) = [].
Proof. exact (queue_button_keeps_player_aux p). Qed.

(** X3. What the Queue button shows.  With no track loaded and an empty
    queue the answer is "The queue is empty.".  Otherwise it is one embed:
    the track loaded first, then the queue from its front, cut to the first
    ten lines, with the number of lines cut off; never more than ten lines,
    and lines shown plus lines cut off are all the lines. *)
Theorem queue_button_shows_first_ten (p : CustomPlayer) :
  (current p = None -> _custom_queue p = [] ->
   output (queue_button (Some p)) = [Defer; Followup "The queue is empty."])
  /\ (queue_lines p <> [] ->
      exists lines more,
        output (queue_button (Some p))
          = [Defer; FollowupEmbed (MusicQueue lines more)]
        /\ lines = firstn 10 (queue_lines p)
        /\ (List.length lines <= 10)%nat
        /\ (List.length lines + more = List.length (queue_lines p))%nat).
Proof.
  unfold queue_lines. split.
  - intros Hc Hq. open_player p. reflexivity.
  - intros Hne. exists (firstn 10 (queue_lines p)).
    exists (List.length (queue_lines p) - 10)%nat.
    unfold queue_lines.
    split; [|split; [reflexivity|split]].
    + open_player p. unfold_coro. rewrite !transfer_app.
      destruct c as [c|].
      * reflexivity.
      * destruct q as [|x q]; [contradiction|]. reflexivity.
    + rewrite length_firstn. lia.
    + rewrite length_firstn. lia.
Qed.

Lemma queue_button_shows_first_ten_witness :
  output (queue_button (Some (session None [] [track_A] 0)))
    = [Defer; Followup "The queue is empty."]
  /\ exists lines more,
       output (queue_button (Some (session (Some (numbered 1)) (playlist 2 11) [] 0)))
         = [Defer; FollowupEmbed (MusicQueue lines more)]
       /\ List.length lines = 10%nat /\ more = 2%nat.
Proof.
  split.
  - apply (queue_button_shows_first_ten (session None [] [track_A] 0));
      reflexivity.
  - destruct (queue_button_shows_first_ten
                (session (Some (numbered 1)) (playlist 2 11) [] 0))
      as [_ H].
    destruct H as (lines & more & Hout & Hl & _ & Hsum); [discriminate|].
    exists lines, more. split; [exact Hout|].
    subst lines. split; [reflexivity|].
    change (10 + more = 12)%nat in Hsum. lia.
Defined.

(** X4. The Shuffle button, when [random.shuffle] returns a permutation of
    the tracks it is given: the queue afterwards holds the same tracks (the
    same number of each), and nothing else of the player changes; the
    backend hears nothing.  On an empty queue the player is untouched and the
    answer is "Queue is empty, nothing to shuffle.". *)
Theorem shuffle_button_permutes_queue
    (shuffle : list Playable -> list Playable) (p : CustomPlayer) :
  Permutation (_custom_queue p) (shuffle (_custom_queue p)) ->
  final (shuffle_button shuffle (Some p))
    = Some (set_custom_queue (shuffle (_custom_queue p)) p)
  /\ List.length (shuffle (_custom_queue p)) = List.length (_custom_queue p)
  /\ backend_commands (output (shuffle_button shuffle (Some p))) = []
  /\ (_custom_queue p = [] ->
      final (shuffle_button shuffle (Some p)) = Some p
      /\ output (shuffle_button shuffle (Some p))
         = [Defer; Followup "Queue is empty, nothing to shuffle."]).
Proof.
  intros Hperm.
  assert (forall l : list Playable,
            Queue.put_all (shuffle (Queue.transfer l [])) [] = shuffle l) as Hback.
  { intros l. now rewrite put_all_app, transfer_app. }
  pose proof (Permutation_length Hperm) as Hl.
  open_player p. unfold_coro.
  destruct q as [|x q].
  - apply Permutation_nil in Hperm. rewrite Hperm.
    repeat split.
  - rewrite Hback. simpl.
    split; [reflexivity|]. split; [now symmetry|].
    split; [reflexivity|discriminate].
Qed.

Lemma shuffle_button_permutes_queue_witness :
  final (shuffle_button (@rev Playable)
           (Some (session (Some track_C) [track_A; track_B] [] 0)))
    = Some (session (Some track_C) [track_B; track_A] [] 0).
Proof.
  destruct (@shuffle_button_permutes_queue (@rev Playable)
              (session (Some track_C) [track_A; track_B] [] 0))
    as (Hfinal & _).
  - simpl. apply perm_swap.
  - exact Hfinal.
Defined.

Lemma modes_mod3 (m : Z) :
  exists name, modes ((m + 1) mod 3) = Some name.
Proof.
  pose proof (Z.mod_pos_bound (m + 1) 3 ltac:(lia)) as Hb.
  unfold modes.
  destruct (Z.eqb_spec ((m + 1) mod 3) 0); [eauto|].
  destruct (Z.eqb_spec ((m + 1) mod 3) 1); [eauto|].
  destruct (Z.eqb_spec ((m + 1) mod 3) 2); [eauto|].
  lia.
Qed.

Lemma loop_button_final (p : CustomPlayer) :
  final (loop_button (Some p))
    = Some (set_loop_mode ((loop_mode p + 1) mod 3) p).
Proof.
  open_player p. unfold_coro. cbn [loop_mode].
  destruct (modes_mod3 lm) as (name & ->). reflexivity.
Qed.

(** X5. The Loop button always leaves a loop mode among 0, 1, 2, whatever
    the mode was, and always announces it: the lookup of the mode's name
    never misses.  From 0 it goes to 1, from 1 to 2, from 2 to 0, so three
    presses bring a player back to what it was; only the loop mode is ever
    changed. *)
Theorem loop_button_cycles (p : CustomPlayer) :
  (exists name,
     modes ((loop_mode p + 1) mod 3) = Some name
     /\ loop_button (Some p)
        = Returned tt (Some (set_loop_mode ((loop_mode p + 1) mod 3) p))
            [Defer; Followup ("Loop mode set to: **" ++ name ++ "**")])
  /\ (0 <= (loop_mode p + 1) mod 3 <= 2)%Z
  /\ ((0 <= loop_mode p <= 2)%Z ->
      run [Loop; Loop; Loop] (Some p) = Some p
      /\ (loop_mode p = 0%Z -> run [Loop] (Some p) = Some (set_loop_mode 1 p))
      /\ (loop_mode p = 1%Z -> run [Loop] (Some p) = Some (set_loop_mode 2 p))
      /\ (loop_mode p = 2%Z -> run [Loop] (Some p) = Some (set_loop_mode 0 p))).
Proof.
  split; [|split].
  - destruct (modes_mod3 (loop_mode p)) as (name & Hname).
    exists name. split; [exact Hname|].
    open_player p. unfold_coro. cbn [loop_mode]. rewrite Hname. reflexivity.
  - pose proof (Z.mod_pos_bound (loop_mode p + 1) 3 ltac:(lia)). lia.
  - intros Hr. unfold run. cbn [fold_left dispatch]. rewrite !loop_button_final.
    assert (loop_mode p = 0 \/ loop_mode p = 1 \/ loop_mode p = 2)%Z
      as [E|[E|E]] by lia;
      open_player p; (split; [reflexivity|]);
      repeat split; intros; try discriminate; reflexivity.
Qed.

Lemma loop_button_cycles_witness :
  run [Loop; Loop; Loop] (Some (session (Some track_A) [track_B] [] 1))
    = Some (session (Some track_A) [track_B] [] 1)
  /\ run [Loop] (Some (session (Some track_A) [track_B] [] 2))
     = Some (session (Some track_A) [track_B] [] 0).
Proof.
  split.
  - destruct (loop_button_cycles (session (Some track_A) [track_B] [] 1))
      as (_ & _ & H).
    destruct H as (H3 & _); [simpl; lia | exact H3].
  - destruct (loop_button_cycles (session (Some track_A) [track_B] [] 2))
      as (_ & _ & H).
    destruct H as (_ & _ & _ & H2); [simpl; lia | exact (H2 eq_refl)].
Defined.

(** The Previous button on a history [h ++ [t]]. *)
Lemma previous_button_pop (o : EditOutcome) (p : CustomPlayer)
    (h : list Playable) (t : Playable) :
  history p = h ++ [t] ->
  exists out,
    previous_button o (Some p)
      = Returned tt
          (Some {| current := Some t; playing := true; paused := paused p;
                   volume := volume p;
                   _custom_queue := option_list (current p) ++ _custom_queue p;
                   history := h;
                   loop_mode := loop_mode p;
                   current_message := match o with
                                      | NotFound => None
                                      | _ => current_message p
                                      end |}) out
    /\ backend_commands out = [BackendPlay t].
Proof.
  intros Hh. open_player p. step_coro. rewrite list_pop_snoc.
  destruct c as [c|]; simpl; try rewrite transfer_app;
    destruct cm as [m|], o; simpl; eexists; split; reflexivity.
Qed.

Lemma snoc_cases (A : Type) (l : list A) :
  l = [] \/ exists front x, l = front ++ [x].
Proof.
  destruct (list_pop l) as [[front x]|] eqn:E.
  - right. exists front, x. now apply list_pop_some.
  - left. now apply list_pop_none.
Qed.

Lemma play_next_loop_mode (o : EditOutcome) (p : CustomPlayer) :
  loop_mode (final (play_next_track_from_custom_queue o p)) = loop_mode p
  \/ loop_mode (final (play_next_track_from_custom_queue o p)) = 0%Z.
Proof.
  destruct (play_next_cases o p)
    as [(c & _ & _ & E)|[(next & q' & Hq & E)|[(a & rest & _ & _ & _ & E)|[_ E]]]];
    rewrite E.
  - destruct (replay_spec o p c) as (out & -> & _). now left.
  - destruct (play_next_tail_cons o p Hq) as (out & -> & _). now left.
  - destruct (@play_next_tail_cons o
                (set_history [] (set_custom_queue (a :: rest) p)) a rest eq_refl)
      as (out & -> & _). now left.
  - right. apply disconnect_and_clean_up_resets.
Qed.

Lemma dispatch_loop_mode_valid (ev : Event) (vc : option CustomPlayer) :
  loop_mode_valid vc -> loop_mode_valid (final (dispatch ev vc)).
Proof.
  destruct ev; simpl; (destruct vc as [p|]; [|try exact (fun H => H)]);
    unfold loop_mode_valid; intros Hv.
  - unfold on_wavelink_track_end. rewrite final_as_client.
    destruct (reason =? 0)%Z;
      [destruct (play_next_loop_mode o p) as [-> | ->]; lia|].
    destruct (reason =? 1)%Z; [|exact Hv].
    destruct (negb _);
      [destruct (play_next_loop_mode o p) as [-> | ->]; lia|].
    destruct (disconnect_and_clean_up_resets o p) as (_ & _ & -> & _). lia.
  - destruct (snoc_cases (history p)) as [E|(h & t & E)].
    + open_player p. exact Hv.
    + destruct (@previous_button_pop o p h t E) as (out & -> & _). exact Hv.
  - open_player p. step_coro. destruct pa; exact Hv.
  - open_player p. step_coro. destruct pl; exact Hv.
  - open_player p. step_coro.
    destruct c, q, (lm =? 2)%Z, pl, pa; exact Hv.
  - open_player p. step_coro. destruct cm; [destruct o|]; simpl; lia.
  - destruct (queue_button_keeps_player_aux p) as [-> _]. exact Hv.
  - open_player p. step_coro. destruct q; exact Hv.
  - rewrite loop_button_final. simpl.
    pose proof (Z.mod_pos_bound (loop_mode p + 1) 3 ltac:(lia)). lia.
  - open_player p. exact Hv.
  - open_player p. exact Hv.
  - unfold join. destruct user_voice; exact Hv.
  - unfold join. destruct user_voice; simpl; [lia | exact I].
  - unfold play. destruct found; [exact Hv|].
    open_player p. step_coro. destruct pl, q; exact Hv.
  - unfold play. destruct user_voice; simpl; [|exact I].
    destruct found; simpl; lia.
  - rewrite final_as_client.
    destruct (play_next_loop_mode o p) as [-> | ->]; lia.
  - exact Hv.
  - exact I.
Qed.

(** X6. In every reachable state of a guild's voice client the loop mode
    is 0, 1 or 2. *)
Theorem loop_mode_always_valid (vc : option CustomPlayer) (p : CustomPlayer) :
  reachable vc -> vc = Some p -> (0 <= loop_mode p <= 2)%Z.
Proof.
  intros Hr. revert p.
  assert (loop_mode_valid vc) as Hv.
  { induction Hr as [|ev vc Hr IH];
      [exact I | now apply dispatch_loop_mode_valid]. }
  intros p ->. exact Hv.
Qed.

Lemma loop_mode_always_valid_witness :
  (0 <= loop_mode paused_idle <= 2)%Z.
Proof.
  apply (@loop_mode_always_valid (run to_paused_idle None) paused_idle).
  - apply run_reachable. constructor.
  - reflexivity.
Defined.

(** ** Next and previous *)

(** X7. The timeline of a session (history, then the track loaded, then
    the queue) is the same before and after the Previous button, when there
    is a history.  It is also the same before and after a finished or
    stopped track that moves on to the head of the queue, as long as the
    history has room; when the history already holds ten tracks, the
    timeline loses its first (oldest) track and nothing else. *)
Theorem timeline_kept_by_next_and_previous (o : EditOutcome) (p : CustomPlayer) :
  (history p <> [] ->
   exists p', final (previous_button o (Some p)) = Some p'
     /\ timeline p' = timeline p)
  /\ (forall r, r = 0%Z \/ r = 1%Z ->
      loop_mode p <> 1%Z \/ current p = None ->
      _custom_queue p <> [] ->
      exists p', final (on_wavelink_track_end r o (Some p)) = Some p'
        /\ current p' = hd_error (_custom_queue p)
        /\ ((List.length (history p) < 10)%nat \/ current p = None ->
            timeline p' = timeline p)
        /\ (List.length (history p) = 10%nat -> current p <> None ->
            timeline p' = tl (timeline p))).
Proof.
  split.
  - intros Hne.
    destruct (snoc_cases (history p)) as [E|(h & t & E)]; [contradiction|].
    destruct (@previous_button_pop o p h t E) as (out & -> & _).
    eexists. split; [reflexivity|].
    unfold timeline. simpl. rewrite E, <- !app_assoc. reflexivity.
  - intros r Hr Hloop Hq.
    destruct (_custom_queue p) as [|x q'] eqn:Eq; [contradiction|].
    destruct (track_end_advances o p Hr Hloop Eq) as (out & -> & _).
    eexists. split; [reflexivity|]. split; [reflexivity|].
    unfold timeline. simpl. rewrite Eq. split.
    + intros Hroom. destruct (current p) as [c|]; simpl; [|reflexivity].
      destruct Hroom as [Hlt|Hc]; [|discriminate].
      rewrite (@history_append_short c _ Hlt), <- app_assoc. reflexivity.
    + intros Hfull Hc. destruct (current p) as [c|]; [|contradiction].
      destruct (history p) as [|y h]; [discriminate|].
      rewrite (@history_append_full c y h Hfull). simpl.
      rewrite <- app_assoc. reflexivity.
Qed.

Lemma timeline_kept_by_next_and_previous_witness :
  exists p1 p2,
    final (on_wavelink_track_end 1 Edited
             (Some (session (Some track_B) [track_C] [track_A] 0))) = Some p1
    /\ timeline p1 = [track_A; track_B; track_C]
    /\ final (previous_button Edited (Some p1)) = Some p2
    /\ timeline p2 = [track_A; track_B; track_C].
Proof.
  destruct (timeline_kept_by_next_and_previous Edited
              (session (Some track_B) [track_C] [track_A] 0)) as [_ Hnext].
  destruct (Hnext 1%Z) as (p1 & H1 & Hc1 & Hkeep & _);
    [now right | left; discriminate | discriminate |].
  exists p1.
  assert (history p1 <> []) as Hh1.
  { injection H1 as <-. discriminate. }
  destruct (timeline_kept_by_next_and_previous Edited p1) as [Hprev _].
  destruct (Hprev Hh1) as (p2 & H2 & Ht2).
  exists p2. split; [exact H1|].
  assert (timeline p1 = [track_A; track_B; track_C]) as Ht1.
  { apply Hkeep. left. simpl. lia. }
  split; [exact Ht1|]. split; [exact H2|].
  rewrite Ht2. exact Ht1.
Defined.

(** X8. Previous undoes a track end, and a track end undoes Previous.
    When a finished or stopped track moved on to the head of the queue (no
    replay, history not yet full), the Previous button brings back the
    current track, the queue and the history of before.  When the Previous
    button went back one track from a current track, the next finished or
    stopped track brings back the current track, the queue and the history
    of before. *)
Theorem previous_and_track_end_are_inverse
    (r : Z) (o o' : EditOutcome) (p : CustomPlayer) (c : Playable) :
  r = 0%Z \/ r = 1%Z -> loop_mode p <> 1%Z -> current p = Some c ->
  (_custom_queue p <> [] -> (List.length (history p) < 10)%nat ->
   exists p1 p2,
     final (on_wavelink_track_end r o (Some p)) = Some p1
     /\ final (previous_button o' (Some p1)) = Some p2
     /\ current p2 = current p /\ _custom_queue p2 = _custom_queue p
     /\ history p2 = history p /\ loop_mode p2 = loop_mode p)
  /\ (history p <> [] -> (List.length (history p) <= 10)%nat ->
      exists p1 p2,
        final (previous_button o' (Some p)) = Some p1
        /\ final (on_wavelink_track_end r o (Some p1)) = Some p2
        /\ current p2 = current p /\ _custom_queue p2 = _custom_queue p
        /\ history p2 = history p /\ loop_mode p2 = loop_mode p).
Proof.
  intros Hr Hloop Hc. split.
  - intros Hq Hlt.
    destruct (_custom_queue p) as [|x q'] eqn:Eq; [contradiction|].
    destruct (track_end_advances o p Hr (or_introl Hloop) Eq) as (out & -> & _).
    do 2 eexists. split; [reflexivity|].
    match goal with
    | |- context [previous_button o' (Some ?s)] =>
        destruct (@previous_button_pop o' s (history p) c) as (out' & -> & _)
    end.
    { simpl. rewrite Hc. now apply history_append_short. }
    split; [reflexivity|].
    simpl. rewrite Hc. repeat split.
  - intros Hne Hle.
    destruct (snoc_cases (history p)) as [E|(h & t & E)]; [contradiction|].
    destruct (@previous_button_pop o' p h t E) as (out & -> & _).
    do 2 eexists. split; [reflexivity|].
    match goal with
    | |- context [on_wavelink_track_end r o (Some ?s)] =>
        destruct (@track_end_advances r o s c (_custom_queue p) Hr
                    (or_introl Hloop)) as (out' & -> & _)
    end.
    { simpl. rewrite Hc. reflexivity. }
    split; [reflexivity|].
    simpl. rewrite Hc, E. repeat split.
    apply history_append_short.
    rewrite E, length_app in Hle. simpl in Hle. lia.
Qed.

Lemma previous_and_track_end_are_inverse_witness :
  exists p1 p2,
    final (on_wavelink_track_end 0 Edited
             (Some (session (Some track_B) [track_C] [track_A] 0))) = Some p1
    /\ final (previous_button Edited (Some p1)) = Some p2
    /\ current p2 = Some track_B /\ _custom_queue p2 = [track_C]
    /\ history p2 = [track_A] /\ loop_mode p2 = 0%Z.
Proof.
  destruct (@previous_and_track_end_are_inverse 0 Edited Edited
              (session (Some track_B) [track_C] [track_A] 0) track_B)
    as [Hnext _]; [now left | discriminate | reflexivity |].
  apply Hnext; [discriminate | simpl; lia].
Defined.

(** ** First in, first out *)

Lemma run_cons (ev : Event) (evs : list Event) (vc : option CustomPlayer) :
  run (ev :: evs) vc = run evs (final (dispatch ev vc)).
Proof. reflexivity. Qed.

Lemma last_cons_default (A : Type) (l : list A) (a d : A) :
  last (a :: l) d = last l a.
Proof.
  revert a d; induction l as [|b l IH]; intros a d; [reflexivity|].
  change (last (a :: b :: l) d) with (last (b :: l) d).
  rewrite IH. symmetry. apply IH.
Qed.

Lemma backend_commands_app (l1 l2 : list Effect) :
  backend_commands (l1 ++ l2) = backend_commands l1 ++ backend_commands l2.
Proof. apply filter_app. Qed.

(** X9. Requests made while the player reports a track playing are put in
    the queue in the order they arrive, behind what is already there; the
    track loaded, the history and all the rest stay as they are, and the
    backend hears nothing. *)
Theorem requests_queue_in_order
    (ts : list Playable) (evs : list Event) (p : CustomPlayer) :
  Forall2 requests ts evs -> playing p = true ->
  run evs (Some p) = Some (set_custom_queue (_custom_queue p ++ ts) p)
  /\ backend_commands (run_outputs evs (Some p)) = [].
Proof.
  intros Hreq. revert p.
  induction Hreq as [|t ev ts evs Ht Hreq IH]; intros p Hp.
  - simpl. rewrite app_nil_r. open_player p. split; reflexivity.
  - destruct ev as [| | | | | | | | | | | |query uv found mention msg| | |];
      try contradiction.
    destruct found as [|t' more]; [contradiction|]. simpl in Ht. subst t'.
    assert (dispatch (Play query uv (t :: more) mention msg) (Some p)
            = Returned tt (Some (set_custom_queue (_custom_queue p ++ [t]) p))
                [Defer; Followup ("Added **" ++ wavelink.title t
                                  ++ "** to the queue.")]) as E.
    { open_player p. reflexivity. }
    rewrite run_cons. cbn [run_outputs]. rewrite E. cbn [final output].
    destruct (IH (set_custom_queue (_custom_queue p ++ [t]) p)) as [Hrun Hout];
      [open_player p; reflexivity|].
    rewrite Hrun, backend_commands_app, Hout.
    split; [|reflexivity].
    open_player p. cbv [set_custom_queue]. simpl.
    now rewrite <- app_assoc.
Qed.

Lemma requests_queue_in_order_witness :
  run [Play "B" true [track_B] "@user" 2%nat;
       Play "C" true [track_C; track_A] "@user" 3%nat]
      (Some (session (Some track_A) [] [] 0))
    = Some (session (Some track_A) [track_B; track_C] [] 0).
Proof.
  apply (@requests_queue_in_order [track_B; track_C]
           [Play "B" true [track_B] "@user" 2%nat;
            Play "C" true [track_C; track_A] "@user" 3%nat]
           (session (Some track_A) [] [] 0)).
  - repeat constructor.
  - reflexivity.
Defined.

(** X10. The queue is played first in, first out.  Outside loop mode 1,
    as many finished or stopped tracks as the front part [q1] of the queue
    holds make the backend play exactly the tracks of [q1], in their order
    and nothing else; afterwards the last of them is loaded and the queue is
    what was behind [q1]. *)
Theorem queue_is_played_in_order
    (evs : list Event) (q1 q2 : list Playable) (p : CustomPlayer) :
  Forall track_ended evs -> List.length evs = List.length q1 ->
  loop_mode p <> 1%Z -> _custom_queue p = q1 ++ q2 ->
  backend_commands (run_outputs evs (Some p)) = map BackendPlay q1
  /\ exists p',
       run evs (Some p) = Some p'
       /\ _custom_queue p' = q2
       /\ current p' = last (map Some q1) (current p)
       /\ loop_mode p' = loop_mode p.
Proof.
  intros Hev. revert q1 p.
  induction Hev as [|ev evs Hev _ IH]; intros q1 p Hlen Hloop Hq.
  - destruct q1; [|discriminate]. simpl. split; [reflexivity|].
    exists p. auto.
  - destruct q1 as [|x q1]; [discriminate|].
    destruct ev as [r o| | | | | | | | | | | | | | |]; try contradiction.
    simpl in Hev, Hq.
    destruct (track_end_advances o p Hev (or_introl Hloop) Hq)
      as (out & E & Hout).
    rewrite run_cons. cbn [run_outputs dispatch]. rewrite E. cbn [final output].
    match goal with
    | |- context [run evs (Some ?s)] =>
        destruct (IH q1 s) as (Hplays & p' & Hrun & Hq' & Hc' & Hl');
          [simpl in Hlen; lia | exact Hloop | reflexivity |]
    end.
    rewrite backend_commands_app, Hout, Hplays.
    split; [reflexivity|].
    exists p'. split; [exact Hrun|]. split; [exact Hq'|].
    split; [|exact Hl'].
    rewrite Hc'. cbn [map]. now rewrite last_cons_default.
Qed.

Lemma queue_is_played_in_order_witness :
  backend_commands
    (run_outputs [TrackEnd 0 Edited; TrackEnd 1 Edited]
       (Some (session (Some track_A) [track_B; track_C; track_A] [] 0)))
    = [BackendPlay track_B; BackendPlay track_C].
Proof.
  apply (@queue_is_played_in_order [TrackEnd 0 Edited; TrackEnd 1 Edited]
           [track_B; track_C] [track_A]
           (session (Some track_A) [track_B; track_C; track_A] [] 0)).
  - constructor; [now left|]. constructor; [now right|]. constructor.
  - reflexivity.
  - discriminate.
  - reflexivity.
Defined.

(** ** Loop mode 2 *)

Lemma rotate_length (A : Type) (l : list A) :
  List.length (rotate l) = List.length l.
Proof.
  destruct l as [|x l]; [reflexivity|].
  simpl. rewrite length_app. simpl. lia.
Qed.

Lemma rotate_skipn_firstn (A : Type) (x : A) (l : list A) (k : nat) :
  (k <= List.length l)%nat ->
  skipn k (rotate (x :: l)) ++ firstn k (rotate (x :: l))
    = skipn (S k) (x :: l) ++ firstn (S k) (x :: l)
  /\ firstn k (rotate (x :: l)) = firstn k l.
Proof.
  intros Hk. simpl.
  rewrite skipn_app, firstn_app.
  replace (k - List.length l)%nat with 0%nat by lia.
  simpl. rewrite app_nil_r, <- app_assoc. split; reflexivity.
Qed.

(** One finished track in loop mode 2, on a session of 2 to 11 tracks. *)
Lemma queue_loop_step (o : EditOutcome) (p : CustomPlayer) (c : Playable) :
  loop_mode p = 2%Z -> current p = Some c ->
  (2 <= List.length (rotation p) <= 11)%nat ->
  exists x p' out,
    on_wavelink_track_end 0 o (Some p) = Returned tt (Some p') out
    /\ hd_error (rotation p) = Some x
    /\ loop_mode p' = 2%Z
    /\ current p' = Some x
    /\ rotation p' = rotate (rotation p)
    /\ backend_commands out = [BackendPlay x].
Proof.
  intros Hl Hc Hlen. unfold rotation in *. rewrite Hc in *.
  destruct (_custom_queue p) as [|x q'] eqn:Hq.
  - destruct (history p) as [|a rest] eqn:Hh; [simpl in Hlen; lia|].
    exists a.
    assert (on_wavelink_track_end 0 o (Some p)
            = as_client (play_next_track_from_custom_queue o p)) as ->
      by reflexivity.
    rewrite (play_next_drains_history o p Hl Hq Hh).
    destruct (@play_next_tail_cons o
                (set_history [] (set_custom_queue (a :: rest) p)) a rest eq_refl)
      as (out & -> & Hout).
    do 2 eexists. split; [reflexivity|].
    simpl. rewrite Hc, Hl. simpl.
    repeat split; try assumption. now rewrite <- app_assoc.
  - exists x.
    assert (loop_mode p <> 1%Z) as Hn1 by lia.
    destruct (@track_end_advances 0 o p x q' (or_introl eq_refl)
                (or_introl Hn1) Hq) as (out & -> & Hout).
    do 2 eexists. split; [reflexivity|].
    simpl. rewrite Hc, Hl.
    rewrite history_append_short.
    + repeat split; try assumption. now rewrite <- !app_assoc.
    + simpl in Hlen. rewrite !length_app in Hlen. simpl in Hlen. lia.
Qed.

Lemma queue_loop_run (evs : list Event) :
  forall (p : CustomPlayer) (c : Playable),
  Forall track_finished evs ->
  loop_mode p = 2%Z -> current p = Some c ->
  (2 <= List.length (rotation p) <= 11)%nat ->
  (List.length evs <= List.length (rotation p))%nat ->
  exists p' c',
    run evs (Some p) = Some p'
    /\ loop_mode p' = 2%Z
    /\ current p' = Some c'
    /\ rotation p'
       = skipn (List.length evs) (rotation p)
         ++ firstn (List.length evs) (rotation p)
    /\ backend_commands (run_outputs evs (Some p))
       = map BackendPlay (firstn (List.length evs) (rotation p)).
Proof.
  induction evs as [|ev evs IH]; intros p c Hev Hl Hc Hlen Hk.
  - exists p, c. simpl. rewrite app_nil_r. auto.
  - inversion Hev as [|ev' evs' Hfin Hev']; subst.
    destruct ev as [r o| | | | | | | | | | | | | | |]; try contradiction.
    simpl in Hfin. subst r.
    destruct (queue_loop_step o p Hl Hc Hlen)
      as (x & p1 & out & E & Hhd & Hl1 & Hc1 & Hrot & Hout).
    destruct (rotation p) as [|y R'] eqn:ER; [discriminate|].
    simpl in Hhd. injection Hhd as ->.
    simpl in Hk.
    destruct (IH p1 x Hev' Hl1 Hc1) as (p' & c' & Hrun & Hl' & Hc' & Hrot' & Hplays).
    { rewrite Hrot, rotate_length. exact Hlen. }
    { rewrite Hrot, rotate_length. simpl. lia. }
    exists p', c'.
    rewrite run_cons. cbn [run_outputs dispatch]. rewrite E. cbn [final output].
    rewrite backend_commands_app, Hout, Hplays, Hrot', Hrot.
    destruct (@rotate_skipn_firstn _ x R' (List.length evs)) as [E1 E2]; [lia|].
    repeat split; try assumption.
    rewrite E2. reflexivity.
Qed.

(** X11. Loop mode 2 plays the session round and round.  With a track
    loaded and between 2 and 11 tracks in the session, [k] finished tracks
    (at most as many as the session holds) make the backend play the first
    [k] tracks of the order: queue, then history, then the track loaded; the
    loop mode stays 2.  After as many finished tracks as the session holds,
    the same track is loaded again and the order is the one of the start. *)
Theorem queue_loop_cycles (evs : list Event) (p : CustomPlayer) (c : Playable) :
  Forall track_finished evs ->
  loop_mode p = 2%Z -> current p = Some c ->
  (2 <= List.length (rotation p) <= 11)%nat ->
  (List.length evs <= List.length (rotation p))%nat ->
  backend_commands (run_outputs evs (Some p))
    = map BackendPlay (firstn (List.length evs) (rotation p))
  /\ exists p',
       run evs (Some p) = Some p'
       /\ loop_mode p' = 2%Z
       /\ (List.length evs = List.length (rotation p) ->
           current p' = Some c /\ rotation p' = rotation p).
Proof.
  intros Hev Hl Hc Hlen Hk.
  destruct (queue_loop_run p Hev Hl Hc Hlen Hk)
    as (p' & c' & Hrun & Hl' & Hc' & Hrot & Hplays).
  split; [exact Hplays|].
  exists p'. split; [exact Hrun|]. split; [exact Hl'|].
  intros Hall. rewrite Hall, skipn_all, firstn_all in Hrot. simpl in Hrot.
  split; [|exact Hrot].
  unfold rotation in Hrot. rewrite Hc, Hc' in Hrot. simpl in Hrot.
  rewrite !app_assoc in Hrot. apply app_inj_tail in Hrot.
  destruct Hrot as [_ ->]. exact Hc'.
Qed.

Lemma queue_loop_cycles_witness :
  backend_commands
    (run_outputs (repeat (TrackEnd 0 Edited) 3)
       (Some (session (Some track_A) [track_B; track_C] [] 2)))
    = [BackendPlay track_B; BackendPlay track_C; BackendPlay track_A].
Proof.
  apply (@queue_loop_cycles (repeat (TrackEnd 0 Edited) 3)
           (session (Some track_A) [track_B; track_C] [] 2) track_A).
  - repeat constructor.
  - reflexivity.
  - reflexivity.
  - simpl. lia.
  - simpl. lia.
Defined.

(** ** What a transition asks of the backend *)

Lemma nothing_left_dec (p : CustomPlayer) :
  nothing_left p
  \/ (exists c, loop_mode p = 1%Z /\ current p = Some c)
  \/ ((loop_mode p <> 1%Z \/ current p = None)
      /\ exists x q', _custom_queue p = x :: q')
  \/ (exists a rest, loop_mode p = 2%Z /\ _custom_queue p = []
      /\ history p = a :: rest).
Proof.
  unfold nothing_left.
  destruct (Z.eq_dec (loop_mode p) 1) as [H1|H1];
    [destruct (current p) as [c|] eqn:Hc|].
  - right; left. eauto.
  - destruct (_custom_queue p) as [|x q'] eqn:Hq.
    + left. repeat split; auto. left; lia.
    + right; right; left. eauto.
  - destruct (_custom_queue p) as [|x q'] eqn:Hq.
    + destruct (Z.eq_dec (loop_mode p) 2) as [H2|H2];
        [destruct (history p) as [|a rest] eqn:Hh|].
      * left. auto.
      * right; right; right. eauto.
      * left. auto.
    + right; right; left. eauto.
Qed.

(** X12. A run of [play_next_track_from_custom_queue] sends the backend at
    most one command.  When nothing is left to play (empty queue, nothing to
    replay, nothing to drain) it runs [disconnect_and_clean_up]: the one
    command is the disconnect, unless a message is kept and its edit raises
    an error other than [discord.NotFound], in which case the exception
    leaves the function and the backend hears nothing.  Otherwise the
    function returns and the one command plays a track of the session: the
    track loaded (loop mode 1), else the head of the queue, else, in loop
    mode 2, the oldest track of the history. *)
Theorem play_next_sends_at_most_one_command (o : EditOutcome) (p : CustomPlayer) :
  let r := play_next_track_from_custom_queue o p in
  (List.length (backend_commands (output r)) <= 1)%nat
  /\ (nothing_left p ->
      r = disconnect_and_clean_up o p
      /\ (current_message p = None \/ o <> OtherError ->
          returns r = true
          /\ backend_commands (output r) = [BackendDisconnect])
      /\ (forall m, current_message p = Some m -> o = OtherError ->
          raises r = true /\ backend_commands (output r) = []))
  /\ (~ nothing_left p ->
      exists t,
        returns r = true
        /\ backend_commands (output r) = [BackendPlay t]
        /\ ((loop_mode p = 1%Z /\ current p = Some t)
            \/ ((loop_mode p <> 1%Z \/ current p = None)
                /\ hd_error (_custom_queue p) = Some t)
            \/ (loop_mode p = 2%Z /\ _custom_queue p = []
                /\ hd_error (history p) = Some t))).
Proof.
  cbv zeta.
  assert (nothing_left p ->
          play_next_track_from_custom_queue o p = disconnect_and_clean_up o p)
    as Hleft.
  { intros (Hq & H1 & H2). now apply play_next_disconnects. }
  assert (~ nothing_left p ->
          exists t,
            returns (play_next_track_from_custom_queue o p) = true
            /\ backend_commands (output (play_next_track_from_custom_queue o p))
               = [BackendPlay t]
            /\ ((loop_mode p = 1%Z /\ current p = Some t)
                \/ ((loop_mode p <> 1%Z \/ current p = None)
                    /\ hd_error (_custom_queue p) = Some t)
                \/ (loop_mode p = 2%Z /\ _custom_queue p = []
                    /\ hd_error (history p) = Some t))) as Hplay.
  { intros Hnot.
    destruct (nothing_left_dec p)
      as [Hn|[(c & Hl & Hc)|[(Hloop & x & q' & Hq)|(a & rest & Hl & Hq & Hh)]]];
      [contradiction| | |].
    - exists c. rewrite (play_next_replays o p Hl Hc).
      destruct (replay_spec o p c) as (out & -> & Hout).
      split; [reflexivity|]. split; [exact Hout|]. now left.
    - exists x.
      destruct (@track_end_advances 0 o p x q' (or_introl eq_refl) Hloop Hq)
        as (out & E & Hout).
      change (on_wavelink_track_end 0 o (Some p))
        with (as_client (play_next_track_from_custom_queue o p)) in E.
      rewrite <- returns_as_client, <- output_as_client, E.
      split; [reflexivity|]. split; [exact Hout|].
      right; left. rewrite Hq. auto.
    - exists a. rewrite (play_next_drains_history o p Hl Hq Hh).
      destruct (@play_next_tail_cons o
                  (set_history [] (set_custom_queue (a :: rest) p)) a rest
                  eq_refl) as (out & -> & Hout).
      split; [reflexivity|]. split; [exact Hout|].
      right; right. rewrite Hh. auto. }
  split; [|split].
  - destruct (nothing_left_dec p) as [Hn|Hsome].
    + rewrite (Hleft Hn). open_player p. step_coro.
      destruct cm as [m|]; [destruct o|]; simpl; lia.
    + destruct Hplay as (t & _ & -> & _); [|simpl; lia].
      unfold nothing_left. intros (Hq & H1 & H2).
      destruct Hsome as [(c & Hl & Hc)|[(_ & x & q' & Hq')|(a & rest & Hl & _ & Hh)]].
      * destruct H1; congruence.
      * congruence.
      * destruct H2; congruence.
  - intros Hn. rewrite (Hleft Hn). split; [reflexivity|]. split.
    + intros Hok.
      destruct (disconnect_and_clean_up_completes p Hok) as (out & -> & Hout).
      split; [reflexivity | exact Hout].
    + intros m Hm ->. rewrite (disconnect_and_clean_up_aborts p Hm).
      split; reflexivity.
  - exact Hplay.
Qed.

Lemma play_next_sends_at_most_one_command_witness :
  backend_commands
    (output (play_next_track_from_custom_queue Edited
               (session (Some track_A) [] [] 2)))
    = [BackendDisconnect]
  /\ backend_commands
       (output (play_next_track_from_custom_queue OtherError
                  (session (Some track_A) [] [] 2)))
     = [].
Proof.
  assert (nothing_left (session (Some track_A) [] [] 2)) as Hn.
  { unfold nothing_left. simpl.
    split; [reflexivity|]. split; [left; discriminate | now right]. }
  destruct (play_next_sends_at_most_one_command Edited
              (session (Some track_A) [] [] 2)) as (_ & Hleft & _).
  destruct (play_next_sends_at_most_one_command OtherError
              (session (Some track_A) [] [] 2)) as (_ & Hleft' & _).
  split.
  - destruct (Hleft Hn) as (_ & Hok & _).
    destruct Hok as [_ Hout]; [right; discriminate | exact Hout].
  - destruct (Hleft' Hn) as (_ & _ & Habort).
    exact (proj2 (Habort 1%nat eq_refl eq_refl)).
Defined.

(** X13. A track-end event on a player that [disconnect_and_clean_up] has
    left never starts playback again: whatever its reason and whatever the
    edit does, no track is played, and queue, history and loop mode stay
    empty, empty and 0.  When the clean-up was not cut short (no message was
    kept, or its edit did not raise an error other than [discord.NotFound])
    the player stays exactly the one the clean-up left, and the backend hears
    nothing or one more disconnect. *)
Theorem track_end_after_shutdown_stays_down
    (r : Z) (o1 o : EditOutcome) (p : CustomPlayer) :
  let down := final (disconnect_and_clean_up o1 p) in
  let again := on_wavelink_track_end r o (Some down) in
  (forall t, ~ In (BackendPlay t) (output again))
  /\ (exists p', final again = Some p'
        /\ _custom_queue p' = [] /\ history p' = []
        /\ loop_mode p' = 0%Z /\ current p' = current p)
  /\ (current_message p = None \/ o1 <> OtherError ->
      exists out,
        again = Returned tt (Some down) out
        /\ (backend_commands out = []
            \/ backend_commands out = [BackendDisconnect])).
Proof.
  cbv zeta.
  assert (forall s : CustomPlayer,
            _custom_queue s = [] -> history s = [] -> loop_mode s = 0%Z ->
            on_wavelink_track_end r o (Some s) = Returned tt (Some s) []
            \/ on_wavelink_track_end r o (Some s)
               = as_client (disconnect_and_clean_up o s)) as Hbranch.
  { intros s Hq Hh Hl. unfold on_wavelink_track_end.
    destruct (r =? 0)%Z.
    - right.
      assert (loop_mode s <> 1%Z \/ current s = None) as H1 by (left; lia).
      assert (loop_mode s <> 2%Z \/ history s = []) as H2 by (now right).
      now rewrite (play_next_disconnects o s Hq H1 H2).
    - destruct (r =? 1)%Z; [|now left].
      right. rewrite Hq. reflexivity. }
  destruct (disconnect_and_clean_up_resets o1 p) as (Hq & Hh & Hl & _).
  assert (current (final (disconnect_and_clean_up o1 p)) = current p) as Hc.
  { open_player p. step_coro. destruct cm as [m|]; [destruct o1|]; reflexivity. }
  split; [|split].
  - intros t.
    destruct (Hbranch _ Hq Hh Hl) as [-> | ->]; [intros []|].
    rewrite output_as_client.
    generalize (final (disconnect_and_clean_up o1 p)). intros s.
    open_player s. step_coro.
    destruct cm as [m|]; [destruct o|]; simpl; intros Hin;
      repeat (destruct Hin as [Hin|Hin]; [discriminate Hin|]); exact Hin.
  - destruct (Hbranch _ Hq Hh Hl) as [-> | ->].
    + eexists. split; [reflexivity|]. auto.
    + rewrite final_as_client. eexists. split; [reflexivity|].
      destruct (disconnect_and_clean_up_resets o
                  (final (disconnect_and_clean_up o1 p))) as (Hq' & Hh' & Hl' & _).
      repeat split; try assumption.
      rewrite <- Hc.
      generalize (final (disconnect_and_clean_up o1 p)). intros s.
      open_player s. step_coro. destruct cm as [m|]; [destruct o|]; reflexivity.
  - intros Hok.
    destruct (disconnect_and_clean_up_completes p Hok) as (out1 & E1 & _).
    rewrite E1 in *. cbn [final] in *.
    match goal with
    | |- context [on_wavelink_track_end r o (Some ?s)] =>
        assert (disconnect_and_clean_up o s = Returned tt s [BackendDisconnect])
          as Hagain by reflexivity;
        destruct (Hbranch s eq_refl eq_refl eq_refl) as [-> | ->]
    end.
    + eexists. split; [reflexivity|]. now left.
    + rewrite Hagain. eexists. split; [reflexivity|]. now right.
Qed.

Lemma track_end_after_shutdown_stays_down_witness :
  exists out,
    on_wavelink_track_end 0 OtherError
      (Some (final (disconnect_and_clean_up NotFound
                      (session (Some track_A) [track_B] [track_C] 2))))
      = Returned tt
          (Some (final (disconnect_and_clean_up NotFound
                          (session (Some track_A) [track_B] [track_C] 2)))) out
    /\ (backend_commands out = []
        \/ backend_commands out = [BackendDisconnect]).
Proof.
  destruct (track_end_after_shutdown_stays_down 0 NotFound OtherError
              (session (Some track_A) [track_B] [track_C] 2))
    as (_ & _ & Hdown).
  apply Hdown. right. discriminate.
Defined.

(** ** Requests, pause and volume, continued *)

(** X14. [/play] never changes the history or the loop mode of a player
    that exists, and the only command it can send to the backend is to play
    the first track of the search result.  It does so exactly when a track
    was found and either the voice client reports no track playing or there
    was no voice client and the user sits in a voice channel; in every other
    case the backend hears nothing.  Without a voice client and with the
    user in no voice channel no player is created, whatever was found. *)
Theorem play_only_plays_first_result
    (query mention : string) (msg : Message) (user_voice : bool)
    (found : list Playable) (vc : option CustomPlayer) :
  let r := play query user_voice found mention msg vc in
  let starts :=
    match vc with
    | Some p => negb (playing p)
    | None => user_voice
    end in
  backend_commands (output r)
    = match found with
      | t :: _ => if starts then [BackendPlay t] else []
      | [] => []
      end
  /\ (forall p p', vc = Some p -> final r = Some p' ->
      history p' = history p /\ loop_mode p' = loop_mode p)
  /\ (vc = None -> user_voice = false -> final r = None).
Proof.
  cbv zeta. destruct vc as [p|].
  - split; [|split; [|discriminate]].
    + destruct found as [|t more]; [reflexivity|].
      open_player p. step_coro. destruct pl, q; reflexivity.
    + intros p0 p' [= <-]. destruct found as [|t more].
      * intros [= <-]. auto.
      * open_player p. step_coro. destruct pl, q; intros [= <-]; auto.
  - split; [|split; [discriminate|]].
    + destruct user_voice, found; reflexivity.
    + intros _ ->. reflexivity.
Qed.

Lemma play_only_plays_first_result_witness :
  final (play "A" false [track_A] "@user" 1%nat None) = None
  /\ history (session (Some track_A) [track_B] [track_C] 0) = [track_C].
Proof.
  destruct (@play_only_plays_first_result "A" "@user" 1%nat false [track_A] None)
    as (_ & _ & Hnone).
  split; [exact (Hnone eq_refl eq_refl)|].
  destruct (@play_only_plays_first_result "B" "@user" 2%nat true [track_B]
              (Some (session (Some track_A) [] [track_C] 0)))
    as (_ & Hframe & _).
  exact (proj1 (Hframe (session (Some track_A) [] [track_C] 0)
                  (session (Some track_A) [track_B] [track_C] 0)
                  eq_refl eq_refl)).
Defined.

(** X15. Pause acts only on a player that reports a track playing, Resume
    only on a paused one; otherwise each just answers and the player is the
    one it was.  On a player that plays, Pause then Resume sends the backend
    a pause and then a resume and leaves the player not paused and otherwise
    unchanged. *)
Theorem pause_then_resume (p : CustomPlayer) :
  (playing p = true ->
   run [Pause; Resume] (Some p) = Some (set_paused false p)
   /\ backend_commands (run_outputs [Pause; Resume] (Some p))
      = [BackendPause true; BackendPause false])
  /\ (playing p = false ->
      pause_button (Some p)
        = Returned tt (Some p) [Defer; Followup "No music playing to pause."])
  /\ (paused p = false ->
      play_button (Some p)
        = Returned tt (Some p)
            [Defer; Followup "Music is already playing or no music to resume."]).
Proof.
  open_player p. repeat split; intros; subst; reflexivity.
Qed.

Lemma pause_then_resume_witness :
  run [Pause; Resume] (Some (session (Some track_A) [track_B] [] 0))
    = Some (session (Some track_A) [track_B] [] 0)
  /\ pause_button (Some (session None [track_B] [] 0))
     = Returned tt (Some (session None [track_B] [] 0))
         [Defer; Followup "No music playing to pause."].
Proof.
  destruct (pause_then_resume (session (Some track_A) [track_B] [] 0))
    as (Hplay & _).
  destruct (pause_then_resume (session None [track_B] [] 0))
    as (_ & Hidle & _).
  split; [apply Hplay; reflexivity | apply Hidle; reflexivity].
Defined.

Lemma vol_up_final (p : CustomPlayer) :
  (0 <= volume p <= 1000)%Z ->
  final (vol_up_button (Some p))
    = Some (set_volume_field (Z.min 1000 (volume p + 100)) p).
Proof.
  intros Hv. unfold vol_up_button. rewrite final_as_client.
  cbv [bind call attr assign Player.set_volume final].
  replace (Z.max (Z.min (Z.min 1000 (volume p + 100)) 1000) 0)
    with (Z.min 1000 (volume p + 100)) by lia.
  reflexivity.
Qed.

Lemma vol_down_final (p : CustomPlayer) :
  (0 <= volume p <= 1000)%Z ->
  final (vol_down_button (Some p))
    = Some (set_volume_field (Z.max 0 (volume p - 100)) p).
Proof.
  intros Hv. unfold vol_down_button. rewrite final_as_client.
  cbv [bind call attr assign Player.set_volume final].
  replace (Z.max (Z.min (Z.max 0 (volume p - 100)) 1000) 0)
    with (Z.max 0 (volume p - 100)) by lia.
  reflexivity.
Qed.

Lemma set_volume_field_twice (v w : Z) (p : CustomPlayer) :
  set_volume_field v (set_volume_field w p) = set_volume_field v p.
Proof. reflexivity. Qed.

(** X16. The volume buttons saturate.  From a volume [v] between 0 and
    1000, [k] presses of Vol + leave [min 1000 (v + 100 k)] and [k] presses
    of Vol - leave [max 0 (v - 100 k)], the rest of the player unchanged; so
    ten presses reach 1000, or 0, from anywhere. *)
Theorem volume_buttons_saturate (k : nat) (p : CustomPlayer) :
  (0 <= volume p <= 1000)%Z ->
  run (repeat VolUp k) (Some p)
    = Some (set_volume_field (Z.min 1000 (volume p + 100 * Z.of_nat k)) p)
  /\ run (repeat VolDown k) (Some p)
     = Some (set_volume_field (Z.max 0 (volume p - 100 * Z.of_nat k)) p)
  /\ ((10 <= k)%nat ->
      run (repeat VolUp k) (Some p) = Some (set_volume_field 1000 p)
      /\ run (repeat VolDown k) (Some p) = Some (set_volume_field 0 p)).
Proof.
  intros Hv.
  assert (run (repeat VolUp k) (Some p)
          = Some (set_volume_field (Z.min 1000 (volume p + 100 * Z.of_nat k)) p)
          /\ run (repeat VolDown k) (Some p)
             = Some (set_volume_field (Z.max 0 (volume p - 100 * Z.of_nat k)) p))
    as [Hup Hdown].
  { revert p Hv. induction k as [|k IH]; intros p Hv.
    - simpl. replace (Z.min 1000 (volume p + 0)) with (volume p) by lia.
      replace (Z.max 0 (volume p - 0)) with (volume p) by lia.
      open_player p. split; reflexivity.
    - cbn [repeat]. rewrite !run_cons. cbn [dispatch].
      rewrite (vol_up_final p Hv), (vol_down_final p Hv).
      destruct (IH (set_volume_field (Z.min 1000 (volume p + 100)) p))
        as [-> _]; [simpl; lia|].
      destruct (IH (set_volume_field (Z.max 0 (volume p - 100)) p))
        as [_ ->]; [simpl; lia|].
      rewrite !set_volume_field_twice. cbn [volume set_volume_field].
      split; f_equal; f_equal; lia. }
  split; [exact Hup|]. split; [exact Hdown|].
  intros Hk. rewrite Hup, Hdown. split; f_equal; f_equal; lia.
Qed.

Lemma volume_buttons_saturate_witness :
  run (repeat VolUp 10) (Some CustomPlayer_init)
    = Some (set_volume_field 1000 CustomPlayer_init)
  /\ run (repeat VolDown 3) (Some CustomPlayer_init)
     = Some (set_volume_field 0 CustomPlayer_init).
Proof.
  destruct (@volume_buttons_saturate 10 CustomPlayer_init) as (Hup & _);
    [simpl; lia|].
  destruct (@volume_buttons_saturate 3 CustomPlayer_init) as (_ & Hdown & _);
    [simpl; lia|].
  split; [exact Hup | exact Hdown].
Defined.

(** ** Walking back *)

Lemma previous_keeps_timeline (o : EditOutcome) (p : CustomPlayer)
    (h : list Playable) (t : Playable) :
  history p = h ++ [t] ->
  exists p' out,
    previous_button o (Some p) = Returned tt (Some p') out
    /\ history p' = h
    /\ timeline p' = timeline p
    /\ backend_commands out = [BackendPlay t].
Proof.
  intros E. destruct (@previous_button_pop o p h t E) as (out & -> & Hout).
  do 2 eexists. split; [reflexivity|]. split; [reflexivity|].
  split; [|exact Hout].
  unfold timeline. simpl. rewrite E, <- !app_assoc. reflexivity.
Qed.

(** X17. The Previous button walks back through the history.  Pressed
    [k] times, with [k] at most the length of the history, it makes the
    backend play the last [k] tracks of the history, newest first; the
    history is then its first part without those [k] tracks, and the
    timeline of the session is unchanged, so every track walked over waits
    in the queue again. *)
Theorem previous_walks_back (os : list EditOutcome) (p : CustomPlayer) :
  (List.length os <= List.length (history p))%nat ->
  backend_commands (run_outputs (map Previous os) (Some p))
    = map BackendPlay (firstn (List.length os) (rev (history p)))
  /\ exists p',
       run (map Previous os) (Some p) = Some p'
       /\ history p'
          = firstn (List.length (history p) - List.length os) (history p)
       /\ timeline p' = timeline p.
Proof.
  revert p. induction os as [|o os IH]; intros p Hk.
  - simpl. split; [reflexivity|]. exists p.
    rewrite Nat.sub_0_r, firstn_all. auto.
  - simpl in Hk.
    destruct (snoc_cases (history p)) as [E|(h & t & E)];
      [rewrite E in Hk; simpl in Hk; lia|].
    destruct (@previous_keeps_timeline o p h t E)
      as (p1 & out & Eprev & Hh1 & Ht1 & Hout).
    cbn [map]. rewrite run_cons. cbn [run_outputs dispatch].
    rewrite Eprev. cbn [final output].
    assert (List.length os <= List.length h)%nat as Hk'.
    { rewrite E, length_app in Hk. simpl in Hk. lia. }
    destruct (IH p1) as (Hplays & p' & Hrun & Hh' & Ht'); [now rewrite Hh1|].
    rewrite backend_commands_app, Hout, Hplays, Hh1, E, rev_app_distr.
    split; [reflexivity|].
    exists p'. split; [exact Hrun|]. split; [|now rewrite Ht'].
    rewrite Hh', Hh1, length_app. simpl.
    replace (List.length h + 1 - S (List.length os))%nat
      with (List.length h - List.length os)%nat by lia.
    rewrite firstn_app.
    replace (List.length h - List.length os - List.length h)%nat
      with 0%nat by lia.
    simpl. now rewrite app_nil_r.
Qed.

Lemma previous_walks_back_witness :
  backend_commands
    (run_outputs [Previous Edited; Previous Edited]
       (Some (session (Some track_C) [] [track_A; track_B] 0)))
    = [BackendPlay track_B; BackendPlay track_A].
Proof.
  apply (@previous_walks_back [Edited; Edited]
           (session (Some track_C) [] [track_A; track_B] 0)).
  simpl. lia.
Defined.
